(** * bip322-js: binary codecs (VarInt, VarStr, Witness) and the strict-DER
      script-signature decoder.

    The development has two layers.

    - A value-level embedding ([VarInt], [VarStr], [Witness], [ScriptSig]):
      a [Uint8Array] is the list of the bytes it shows, a thrown exception is
      a [Throw] result.  What the codecs compute is proved here.
    - A store-level embedding ([Store]): an [ArrayBuffer] lives in a store,
      a [Uint8Array] is a view (buffer, offset, length) on it, and every
      element write of the source is a write to the store.  That the
      caller's buffers are left untouched is proved here, and that this
      embedding computes what the value-level one does. *)

From Stdlib Require Import ZArith List Lia Bool Strings.Byte.
From stdpp Require Import base option list gmap.
Import ListNotations.
Local Open Scope Z_scope.

(** ** JavaScript values *)

(** The values that flow through the codecs.  Reading a typed array past its
    end gives [undefined]; arithmetic on [undefined] gives [NaN].  A finite
    number is idealised as a mathematical integer: every number the codecs
    compute on is an integer below 2^53, where doubles are exact. *)
Inductive jsval : Type :=
| JUndefined
| JNaN
| JInt (z : Z).

Coercion JInt : Z >-> jsval.

(** ToNumber, as an optional integer: [None] stands for NaN. *)
Definition ToNumber (v : jsval) : option Z :=
  match v with
  | JInt z => Some z
  | JUndefined | JNaN => None
  end.

Definition js_arith (f : Z -> Z -> Z) (a b : jsval) : jsval :=
  match ToNumber a, ToNumber b with
  | Some x, Some y => JInt (f x y)
  | _, _ => JNaN
  end.

Definition js_cmp (f : Z -> Z -> bool) (a b : jsval) : bool :=
  match ToNumber a, ToNumber b with
  | Some x, Some y => f x y
  | _, _ => false
  end.

(** [a + b], [a * b] on numbers. *)
Definition js_add : jsval -> jsval -> jsval := js_arith Z.add.
Definition js_mul : jsval -> jsval -> jsval := js_arith Z.mul.

(** [a < b], [a <= b], [a > b], [a >= b]: false as soon as one side is NaN. *)
Definition js_lt : jsval -> jsval -> bool := js_cmp Z.ltb.
Definition js_le : jsval -> jsval -> bool := js_cmp Z.leb.
Definition js_gt : jsval -> jsval -> bool := js_cmp Z.gtb.
Definition js_ge : jsval -> jsval -> bool := js_cmp Z.geb.

(** [a === b] and [a !== b]. *)
Definition js_seq (a b : jsval) : bool :=
  match a, b with
  | JInt x, JInt y => x =? y
  | JUndefined, JUndefined => true
  | _, _ => false
  end.
Definition js_sne (a b : jsval) : bool := negb (js_seq a b).

(** ToInt32: NaN and undefined go to 0, an integer wraps to 32 signed bits. *)
Definition ToInt32 (v : jsval) : Z :=
  match ToNumber v with
  | None => 0
  | Some z => let m := z mod 2^32 in if 2^31 <=? m then m - 2^32 else m
  end.

(** [a & b] and [~a]. *)
Definition js_band (a b : jsval) : jsval := JInt (Z.land (ToInt32 a) (ToInt32 b)).
Definition js_bnot (a : jsval) : jsval := JInt (Z.lnot (ToInt32 a)).

(** Truthiness of a number or undefined, as [if (v)] and [!v] test it. *)
Definition js_truthy (v : jsval) : bool :=
  match v with
  | JInt z => negb (z =? 0)
  | JUndefined | JNaN => false
  end.

(** [Math.floor(a / d)] for a positive power of two [d]: the division is
    exact on doubles, so this is the floor of the quotient. *)
Definition js_floor_div (a : jsval) (d : Z) : jsval :=
  match ToNumber a with
  | Some z => JInt (z / d)
  | None => JNaN
  end.

(** ToIntegerOrInfinity on the values of this model. *)
Definition ToInteger (v : jsval) : Z :=
  match ToNumber v with
  | Some z => z
  | None => 0
  end.

(** The number of iterations of [for (let i = 0; i < count; i++)] when the
    body does not throw: none when [count] is NaN or not positive. *)
Definition iterations (count : jsval) : nat := Z.to_nat (ToInteger count).

(** ** Bytes and typed arrays, value level *)

Definition byte_val (b : byte) : Z := Z.of_N (Byte.to_N b).

Definition byte_of_Z (z : Z) : byte :=
  match Byte.of_N (Z.to_N z) with
  | Some b => b
  | None => x00
  end.

(** ToUint8, the conversion of a number that is stored into an element of a
    [Uint8Array]. *)
Definition ToUint8 (v : jsval) : byte :=
  match ToNumber v with
  | Some z => byte_of_Z (z mod 256)
  | None => x00
  end.

Abbreviation bytes := (list byte).

(** [b.length] / [b.byteLength]. *)
Definition blen (b : bytes) : Z := Z.of_nat (length b).

(** [b[i]]: the element as a number, [undefined] out of range (or for a key
    that is not an array index, such as NaN). *)
Definition get (b : bytes) (i : jsval) : jsval :=
  match i with
  | JInt z =>
      if z <? 0 then JUndefined
      else match b !! Z.to_nat z with
           | Some x => JInt (byte_val x)
           | None => JUndefined
           end
  | JUndefined | JNaN => JUndefined
  end.

(** [b[i] = v]: a write out of range is dropped. *)
Definition put (b : bytes) (i : Z) (v : jsval) : bytes :=
  if i <? 0 then b else <[Z.to_nat i := ToUint8 v]> b.

(** [new Uint8Array(n)]: [n] zero bytes. *)
Definition new_Uint8Array (n : Z) : bytes := replicate (Z.to_nat n) x00.

(** A relative index of [subarray]: negative counts from the end, and the
    result is clamped to the array. *)
Definition rel_index (len : Z) (k : jsval) : Z :=
  let k := ToInteger k in
  if k <? 0 then Z.max (len + k) 0 else Z.min k len.

(** [b.subarray(begin, end)]; [end] may be omitted ([JUndefined]). *)
Definition subarray (b : bytes) (begin end_ : jsval) : bytes :=
  let len := blen b in
  let from := rel_index len begin in
  let to := match end_ with
            | JUndefined => len
            | _ => rel_index len end_
            end in
  take (Z.to_nat (to - from)) (drop (Z.to_nat from) b).

(** The bytes of [target] with [source] written over them from [offset]. *)
Definition splice (target source : bytes) (offset : Z) : bytes :=
  take (Z.to_nat offset) target ++ source
    ++ drop (Z.to_nat offset + length source) target.

(** ** Results *)

(** The error kinds, each with the exception of the source it stands for. *)
Inductive error : Type :=
| ValueTooLarge          (* Error('Integer too large: ...') *)
| EmptyInput             (* Error('Empty buffer provided') *)
| TruncatedInput         (* RangeError of a DataView or set() out of bounds *)
| InvalidHashType        (* Error('Invalid hashType ...') *)
| TooShort               (* Error('DER sequence length is too short') *)
| TooLong                (* Error('DER sequence length is too long') *)
| ExpectedSequence       (* Error('Expected DER sequence') *)
| InvalidSequenceLength  (* Error('DER sequence length is invalid') *)
| ExpectedInteger        (* Error('Expected DER integer') *)
| RLengthZero            (* Error('R length is zero') *)
| RLengthTooLong         (* Error('R length is too long') *)
| ExpectedInteger2       (* Error('Expected DER integer (2)') *)
| SLengthZero            (* Error('S length is zero') *)
| SLengthInvalid         (* Error('S length is invalid') *)
| RNegative              (* Error('R value is negative') *)
| RExcessivelyPadded     (* Error('R value excessively padded') *)
| SNegative              (* Error('S value is negative') *)
| SExcessivelyPadded     (* Error('S value excessively padded') *)
| Base64Unavailable      (* Error('Base64 ... is not available in this environment.') *)
| InvalidCharacter.      (* DOMException of the host's atob / btoa *)

Inductive result (A : Type) : Type :=
| Ok (a : A)
| Throw (e : error).
Arguments Ok {A} a.
Arguments Throw {A} e.

Definition rbind {A B} (r : result A) (k : A -> result B) : result B :=
  match r with
  | Ok a => k a
  | Throw e => Throw e
  end.

#[global] Instance result_ret : MRet result := @Ok.
#[global] Instance result_bind : MBind result := fun A B k r => rbind r k.

(** ** DataView, value level *)

(** An access of [n] bytes at [offset] throws a RangeError unless it lies
    within the view. *)
Definition in_view (b : bytes) (offset n : Z) : bool :=
  (0 <=? offset) && (offset + n <=? blen b).

(** The little-endian value of a list of bytes. *)
Fixpoint le_value (l : bytes) : Z :=
  match l with
  | [] => 0
  | x :: l => byte_val x + 256 * le_value l
  end.

(** The [n] low-order bytes of [z], little-endian. *)
Fixpoint le_bytes (n : nat) (z : Z) : bytes :=
  match n with
  | O => []
  | S n => byte_of_Z (z mod 256) :: le_bytes n (z / 256)
  end.

(** [view.getUint16(offset, true)] and [view.getUint32(offset, true)]. *)
Definition getUintLE (n : Z) (b : bytes) (offset : Z) : result jsval :=
  if in_view b offset n
  then Ok (JInt (le_value (take (Z.to_nat n) (drop (Z.to_nat offset) b))))
  else Throw TruncatedInput.

(** [view.setUint8(offset, v)], [view.setUint16(offset, v, true)] and
    [view.setUint32(offset, v, true)]: the value is first reduced modulo
    2^(8n). *)
Definition setUintLE (n : Z) (b : bytes) (offset : Z) (v : jsval) : result bytes :=
  if in_view b offset n
  then Ok (splice b (le_bytes (Z.to_nat n) (ToInteger v mod 2 ^ (8 * n))) offset)
  else Throw TruncatedInput.

(** [target.set(source, offset)]: a RangeError unless the source fits. *)
Definition typed_set (target source : bytes) (offset : Z) : result bytes :=
  if in_view target offset (blen source)
  then Ok (splice target source offset)
  else Throw TruncatedInput.

(** ** VarInt (helpers/VarInt.ts) *)

Module VarInt.

(** The loop of the 9-byte branch of [encode]: iteration [j] stores
    [value & 0xff] at [1 + j] and goes on with [Math.floor(value / 256)];
    [n] iterations remain. *)
Fixpoint encode_loop (n : nat) (j : Z) (buffer : bytes) (value : jsval) : bytes :=
  match n with
  | O => buffer
  | S n =>
      encode_loop n (j + 1)
        (put buffer (1 + j) (js_band value 0xff))
        (js_floor_div value 256)
  end.

Definition encode (i : jsval) : result bytes :=
  if js_lt i 0xFD then
    let buffer := new_Uint8Array 1 in
    let buffer := put buffer 0 i in
    Ok buffer
  else if js_lt i 0x10000 then
    let buffer := new_Uint8Array 3 in
    buffer ← setUintLE 1 buffer 0 0xfd;
    buffer ← setUintLE 2 buffer 1 i;
    Ok buffer
  else if js_lt i 0x100000000 then
    let buffer := new_Uint8Array 5 in
    buffer ← setUintLE 1 buffer 0 0xfe;
    buffer ← setUintLE 4 buffer 1 i;
    Ok buffer
  else if js_lt i 0x1000000000000 then
    let buffer := new_Uint8Array 9 in
    let buffer := put buffer 0 0xff in
    let buffer := encode_loop 6 0 buffer i in
    let buffer := put buffer 7 0x00 in
    let buffer := put buffer 8 0x00 in
    Ok buffer
  else
    Throw ValueTooLarge.

Definition readUInt16LE (buffer : bytes) (offset : Z) : result jsval :=
  getUintLE 2 buffer offset.

Definition readUInt32LE (buffer : bytes) (offset : Z) : result jsval :=
  getUintLE 4 buffer offset.

(** The loop of [readUIntLE]; [n] iterations remain, [i] is the counter. *)
Fixpoint readUIntLE_loop (n : nat) (buffer : bytes) (offset i : Z)
    (value multiplier : jsval) : jsval :=
  match n with
  | O => value
  | S n =>
      readUIntLE_loop n buffer offset (i + 1)
        (js_add value (js_mul (get buffer (offset + i)) multiplier))
        (js_mul multiplier 256)
  end.

Definition readUIntLE (buffer : bytes) (offset length : Z) : jsval :=
  readUIntLE_loop (Z.to_nat length) buffer offset 0 0 1.

Definition decode (b : bytes) : result jsval :=
  if blen b =? 0 then Throw EmptyInput
  else
    let i := get b 0 in
    if js_seq i 0xfd then readUInt16LE b 1
    else if js_seq i 0xfe then readUInt32LE b 1
    else if js_seq i 0xff then Ok (readUIntLE b 1 6)
    else Ok i.

End VarInt.

(** The tier table of the specification (section 4.1): the length of the
    encoding of [i]. *)
Definition tier_length (i : Z) : Z :=
  if i <? 0xFD then 1
  else if i <? 0x10000 then 3
  else if i <? 0x100000000 then 5
  else 9.

(** ** BufferUtil (helpers/BufferUtil.ts) *)

(** A JavaScript string, as its sequence of UTF-16 code units. *)
Abbreviation jsstring := (list Z).

(** The host environment: [atob] and [btoa] are globals that may be absent.
    [btoa] maps a binary string (code units below 256) to base64 text,
    [atob] maps base64 text back to a binary string. *)
Record host : Type := {
  atob : option (jsstring -> result jsstring);
  btoa : option (jsstring -> result jsstring)
}.

Module BufferUtil.

Definition ensureBuffer (val : bytes) : bytes := val.

(** [concatBytes] of @noble/hashes: the bytes of the parts, in order. *)
Definition concat (a b : bytes) : bytes := a ++ b.

Section WithHost.
Variable env : host.

(** The loop of [base64ToBytes]: [out[i] = binary.charCodeAt(i)] for the
    code units [rest] that remain, [i] being the index of the first. *)
Fixpoint base64ToBytes_loop (rest : jsstring) (i : Z) (out : bytes) : bytes :=
  match rest with
  | [] => out
  | c :: rest => base64ToBytes_loop rest (i + 1) (put out i c)
  end.

Definition base64ToBytes (value : jsstring) : result bytes :=
  match atob env with
  | None => Throw Base64Unavailable
  | Some atob =>
      binary ← atob value;
      let out := new_Uint8Array (Z.of_nat (length binary)) in
      Ok (base64ToBytes_loop binary 0 out)
  end.

(** [String.fromCharCode(...chunk)]. *)
Definition fromCharCode (chunk : bytes) : jsstring := map byte_val chunk.

(** The loop of [bytesToBase64], over chunks of [chunkSize] bytes; [n]
    bounds the number of iterations. *)
Fixpoint bytesToBase64_loop (n : nat) (value : bytes) (chunkSize i : Z)
    (binary : jsstring) : jsstring :=
  match n with
  | O => binary
  | S n =>
      if i <? blen value then
        let chunk := subarray value i (i + chunkSize) in
        bytesToBase64_loop n value chunkSize (i + chunkSize)
          (binary ++ fromCharCode chunk)
      else binary
  end.

Definition bytesToBase64 (value : bytes) : result jsstring :=
  match btoa env with
  | None => Throw Base64Unavailable
  | Some btoa =>
      let chunkSize := 0x8000 in
      let binary := bytesToBase64_loop (length value) value chunkSize 0 [] in
      btoa binary
  end.

Definition fromBase64 (value : jsstring) : result bytes := base64ToBytes value.
Definition toBase64 (value : bytes) : result jsstring := bytesToBase64 value.

End WithHost.

(** The loop of [compare] over the first [n] indices from [i]: [Some r]
    when an iteration returns [r], [None] when the loop runs to its end. *)
Fixpoint compare_loop (n : nat) (a b : bytes) (i : Z) : option Z :=
  match n with
  | O => None
  | S n =>
      if js_sne (get a i) (get b i)
      then Some (if js_lt (get a i) (get b i) then -1 else 1)
      else compare_loop n a b (i + 1)
  end.

Definition compare (a b : bytes) : Z :=
  let len := Z.min (blen a) (blen b) in
  match compare_loop (Z.to_nat len) a b 0 with
  | Some r => r
  | None =>
      if blen a =? blen b then 0
      else if blen a <? blen b then -1 else 1
  end.

Definition equals (a b : bytes) : bool :=
  (blen a =? blen b) && (compare a b =? 0).

End BufferUtil.

(** ** VarStr (helpers/VarStr.ts) *)

Module VarStr.

(** Modelled from the spec: helpers/VarStr.ts is not among the sources.
    Section 4.2: encode(bytes) is VarInt(length) followed by the bytes. *)
Definition encode (s : bytes) : result bytes :=
  header ← VarInt.encode (blen s);
  Ok (BufferUtil.concat header s).

(** Modelled from the spec: helpers/VarStr.ts is not among the sources.
    Section 4.2: decode a VarInt giving the length and the size of the
    header; fail with TruncatedInput if fewer than header size + length
    bytes remain; return the bytes that follow the header.  As
    [VarInt.decode] returns the value only, the size of the header is the
    length of the re-encoded value (sections 4.1 and 9). *)
Definition decode (v : bytes) : result bytes :=
  len ← VarInt.decode v;
  header ← VarInt.encode len;
  let headerSize := blen header in
  if js_lt (blen v) (js_add headerSize len) then Throw TruncatedInput
  else Ok (subarray v headerSize (js_add headerSize len)).

End VarStr.

(** ** Witness (helpers/Witness.ts) *)

Module Witness.

(** The [forEach] of [serialize]: each witness is appended as a VarStr. *)
Fixpoint serialize_loop (witnesses : list bytes) (witnessStack : bytes)
    : result bytes :=
  match witnesses with
  | [] => Ok witnessStack
  | witness :: witnesses =>
      item ← VarStr.encode witness;
      serialize_loop witnesses (BufferUtil.concat witnessStack item)
  end.

(** The witness stack of [serialize], before its base64 encoding. *)
Definition serialize_stack (witnesses : list bytes) : result bytes :=
  witnessStack ← VarInt.encode (Z.of_nat (length witnesses));
  serialize_loop witnesses witnessStack.

(** The loop of [deserialize], [n] iterations remaining. *)
Fixpoint deserialize_loop (n : nat) (witnessToDecode : bytes)
    (witnessDecoded : list bytes) : result (list bytes) :=
  match n with
  | O => Ok witnessDecoded
  | S n =>
      witness ← VarStr.decode witnessToDecode;
      let witnessDecoded := witnessDecoded ++ [witness] in
      item ← VarStr.encode witness;
      let witnessLength := blen item in
      let witnessToDecode :=
        BufferUtil.ensureBuffer (subarray witnessToDecode witnessLength JUndefined) in
      deserialize_loop n witnessToDecode witnessDecoded
  end.

(** [deserialize] from the bytes, once a string argument is decoded. *)
Definition deserialize_bytes (witnessToDecode : bytes) : result (list bytes) :=
  witnessCount ← VarInt.decode witnessToDecode;
  header ← VarInt.encode witnessCount;
  let varIntLength := blen header in
  let witnessToDecode :=
    BufferUtil.ensureBuffer (subarray witnessToDecode varIntLength JUndefined) in
  deserialize_loop (iterations witnessCount) witnessToDecode [].

Section WithHost.
Variable env : host.

Definition serialize (witnesses : list bytes) : result jsstring :=
  witnessStack ← serialize_stack witnesses;
  BufferUtil.toBase64 env witnessStack.

(** The argument is a string ([inl]) or a [Uint8Array] ([inr]). *)
Definition deserialize (encodedWitness : jsstring + bytes)
    : result (list bytes) :=
  witnessToDecode ←
    match encodedWitness with
    | inl text => BufferUtil.fromBase64 env text
    | inr raw => Ok raw
    end;
  deserialize_bytes witnessToDecode.

End WithHost.

End Witness.

(** ** decodeScriptSignature (src/bitcoinjs) *)

Module ScriptSig.

Record ScriptSignature : Type := {
  signature : bytes;
  hashType : jsval
}.

(** [concatBytes] of @noble/hashes. *)
Definition concatBytes (a b : bytes) : bytes := a ++ b.

Definition fromDER (x : bytes) : result bytes :=
  let data := x in
  let data :=
    if js_seq (get data 0) 0x00 then subarray data 1 JUndefined else data in
  let buffer := new_Uint8Array 32 in
  let trimmed :=
    if blen data >? 32 then subarray data (blen data - 32) JUndefined
    else data in
  let bstart := 32 - blen trimmed in
  typed_set buffer trimmed bstart.

Definition decode2 (buffer : bytes) : result (bytes * bytes) :=
  if blen buffer <? 8 then Throw TooShort else
  if blen buffer >? 72 then Throw TooLong else
  if js_sne (get buffer 0) 0x30 then Throw ExpectedSequence else
  if js_sne (get buffer 1) (blen buffer - 2) then Throw InvalidSequenceLength else
  if js_sne (get buffer 2) 0x02 then Throw ExpectedInteger else
  let lenR := get buffer 3 in
  if js_seq lenR 0 then Throw RLengthZero else
  if js_ge (js_add 5 lenR) (blen buffer) then Throw RLengthTooLong else
  if js_sne (get buffer (js_add 4 lenR)) 0x02 then Throw ExpectedInteger2 else
  let lenS := get buffer (js_add 5 lenR) in
  if js_seq lenS 0 then Throw SLengthZero else
  if js_sne (js_add (js_add 6 lenR) lenS) (blen buffer) then Throw SLengthInvalid else
  if js_truthy (js_band (get buffer 4) 0x80) then Throw RNegative else
  if js_gt lenR 1 && js_seq (get buffer 4) 0x00
     && negb (js_truthy (js_band (get buffer 5) 0x80))
  then Throw RExcessivelyPadded else
  if js_truthy (js_band (get buffer (js_add lenR 6)) 0x80) then Throw SNegative else
  if js_gt lenS 1 && js_seq (get buffer (js_add lenR 6)) 0x00
     && negb (js_truthy (js_band (get buffer (js_add lenR 7)) 0x80))
  then Throw SExcessivelyPadded else
  Ok (subarray buffer 4 (js_add 4 lenR),
      subarray buffer (js_add 6 lenR) JUndefined).

Definition decodeScriptSignature (buffer : bytes) : result ScriptSignature :=
  let hashType := get buffer (blen buffer - 1) in
  let hashTypeMod := js_band hashType (js_bnot 0x80) in
  if js_le hashTypeMod 0 || js_ge hashTypeMod 4 then Throw InvalidHashType
  else
    decoded ← decode2 (subarray buffer 0 (-1));
    r ← fromDER (fst decoded);
    s ← fromDER (snd decoded);
    let signature := concatBytes r s in
    Ok {| signature := signature; hashType := hashType |}.

End ScriptSig.

(** ** The decoder, in the words of the specification (section 4.4) *)

(** The byte of [payload] at offset [k], as an integer. *)
Definition byte_at (payload : bytes) (k : Z) : Z :=
  match payload !! Z.to_nat k with
  | Some x => byte_val x
  | None => 0
  end.

(** The high bit of a byte. *)
Definition high_bit (x : Z) : bool := Z.testbit x 7.

(** Step 1: the hash-type byte [h] is valid when [h & ~0x80] lies strictly
    between 0 and 4. *)
Definition hash_type_ok (h : Z) : bool :=
  let hashTypeMod := Z.land h (Z.lnot 0x80) in
  (0 <? hashTypeMod) && (hashTypeMod <? 4).

(** Steps 2a to 2g, up to and including the check that [lenS] is not zero:
    the checks that come before the comparison of [6 + lenR + lenS] with the
    length of the payload. *)
Definition checks_before_S_length (payload : bytes) : bool :=
  let len := blen payload in
  let lenR := byte_at payload 3 in
  let lenS := byte_at payload (5 + lenR) in
  (8 <=? len) && (len <=? 72)
  && (byte_at payload 0 =? 0x30)
  && (byte_at payload 1 =? len - 2)
  && (byte_at payload 2 =? 0x02)
  && negb (lenR =? 0) && negb (len <=? 4 + lenR + 1)
  && (byte_at payload (4 + lenR) =? 0x02)
  && negb (lenS =? 0).

(** Steps 2a to 2k: all the structural checks. *)
Definition structural_checks (payload : bytes) : bool :=
  let len := blen payload in
  let lenR := byte_at payload 3 in
  let lenS := byte_at payload (5 + lenR) in
  checks_before_S_length payload
  && (6 + lenR + lenS =? len)
  && negb (high_bit (byte_at payload 4))
  && negb ((1 <? lenR) && (byte_at payload 4 =? 0x00)
           && negb (high_bit (byte_at payload 5)))
  && negb (high_bit (byte_at payload (lenR + 6)))
  && negb ((1 <? lenS) && (byte_at payload (lenR + 6) =? 0x00)
           && negb (high_bit (byte_at payload (lenR + 7)))).

(** Step 2l: R and S, as they lie in the payload. *)
Definition der_R (payload : bytes) : bytes :=
  let lenR := byte_at payload 3 in
  take (Z.to_nat lenR) (drop 4 payload).

Definition der_S (payload : bytes) : bytes :=
  let lenR := byte_at payload 3 in
  let lenS := byte_at payload (5 + lenR) in
  take (Z.to_nat lenS) (drop (Z.to_nat (6 + lenR)) payload).

(** Step 3: strip a single leading 0x00 sign-guard byte if present, then
    left-zero-pad to 32 bytes, or keep only the low-order 32 bytes. *)
Definition normalize32 (x : bytes) : bytes :=
  let stripped := match x with
                  | x0 :: rest => if byte_val x0 =? 0x00 then rest else x
                  | [] => x
                  end in
  if (length stripped <=? 32)%nat
  then replicate (32 - length stripped) x00 ++ stripped
  else drop (length stripped - 32) stripped.

(** ** A reference host *)

(** Base64 over the alphabet of RFC 4648, with padding: what [btoa]
    produces, and [atob] on such text.  (The [atob] of a browser also
    accepts white space and text without padding.) *)
Module Base64.

(** The code unit of the character for the 6-bit value [n]:
    [A-Z], [a-z], [0-9], [+], [/]. *)
Definition alphabet_char (n : Z) : Z :=
  if n <? 26 then 65 + n
  else if n <? 52 then 97 + (n - 26)
  else if n <? 62 then 48 + (n - 52)
  else if n =? 62 then 43
  else 47.

Definition alphabet_index (c : Z) : option Z :=
  if (65 <=? c) && (c <=? 90) then Some (c - 65)
  else if (97 <=? c) && (c <=? 122) then Some (c - 97 + 26)
  else if (48 <=? c) && (c <=? 57) then Some (c - 48 + 52)
  else if c =? 43 then Some 62
  else if c =? 47 then Some 63
  else None.

(** The code unit of the padding character [=]. *)
Definition pad : Z := 61.

Fixpoint encode_groups (binary : jsstring) : jsstring :=
  match binary with
  | [] => []
  | [a] =>
      [alphabet_char (a / 4); alphabet_char (a mod 4 * 16); pad; pad]
  | [a; b] =>
      [alphabet_char (a / 4); alphabet_char (a mod 4 * 16 + b / 16);
       alphabet_char (b mod 16 * 4); pad]
  | a :: b :: c :: rest =>
      alphabet_char (a / 4) :: alphabet_char (a mod 4 * 16 + b / 16)
        :: alphabet_char (b mod 16 * 4 + c / 64) :: alphabet_char (c mod 64)
        :: encode_groups rest
  end.

Definition encode (binary : jsstring) : result jsstring :=
  if forallb (fun c => (0 <=? c) && (c <? 256)) binary
  then Ok (encode_groups binary)
  else Throw InvalidCharacter.

Definition is_nil {A} (l : list A) : bool :=
  match l with [] => true | _ => false end.

Fixpoint decode_groups (text : jsstring) : result jsstring :=
  match text with
  | [] => Ok []
  | c0 :: c1 :: c2 :: c3 :: rest =>
      match alphabet_index c0, alphabet_index c1 with
      | Some s0, Some s1 =>
          let b0 := s0 * 4 + s1 / 16 in
          if (c2 =? pad) && (c3 =? pad) && is_nil rest then Ok [b0]
          else
            match alphabet_index c2 with
            | Some s2 =>
                let b1 := s1 mod 16 * 16 + s2 / 4 in
                if (c3 =? pad) && is_nil rest then Ok [b0; b1]
                else
                  match alphabet_index c3 with
                  | Some s3 =>
                      let b2 := s2 mod 4 * 64 + s3 in
                      tail ← decode_groups rest;
                      Ok (b0 :: b1 :: b2 :: tail)
                  | None => Throw InvalidCharacter
                  end
            | None => Throw InvalidCharacter
            end
      | _, _ => Throw InvalidCharacter
      end
  | _ => Throw InvalidCharacter
  end.

Definition decode (text : jsstring) : result jsstring := decode_groups text.

Definition env : host := {| atob := Some decode; btoa := Some encode |}.

End Base64.

(** The contract of the host's base64 functions: both are present, and
    [atob] undoes [btoa] on every binary string. *)
Definition base64_host (env : host) : Prop :=
  exists a b, atob env = Some a /\ btoa env = Some b
    /\ forall binary : jsstring,
         Forall (fun c => 0 <= c < 256) binary ->
         exists text, b binary = Ok text /\ a text = Ok binary.

(** * The store-level embedding *)

Module Store.

(** The store: the contents of every [ArrayBuffer], by address. *)
Abbreviation store := (gmap nat (list byte)).

(** A [Uint8Array]: a view on a buffer of the store.  Two views on the same
    buffer alias each other. *)
Record Uint8Array : Type := {
  buffer : nat;
  byteOffset : nat;
  length : nat
}.

(** A computation reads and writes the store, and returns or throws. *)
Definition M (A : Type) : Type := store -> result A * store.

#[global] Instance M_ret : MRet M := fun A a st => (Ok a, st).
#[global] Instance M_bind : MBind M := fun A B k m st =>
  match m st with
  | (Ok a, st') => k a st'
  | (Throw e, st') => (Throw e, st')
  end.

Definition throw {A} (e : error) : M A := fun st => (Throw e, st).

(** Lifts a result that needs no store. *)
Definition lift {A} (r : result A) : M A := fun st => (r, st).

(** The bytes that a view shows. *)
Definition view_bytes (st : store) (a : Uint8Array) : list byte :=
  match st !! buffer a with
  | Some contents => take (length a) (drop (byteOffset a) contents)
  | None => []
  end.

Definition contents (a : Uint8Array) : M (list byte) :=
  fun st => (Ok (view_bytes st a), st).

(** Writes [l] into the buffer of [a], from [offset] in the view; the only
    operation that changes a buffer of the store. *)
Definition poke (a : Uint8Array) (offset : Z) (l : list byte) : M unit :=
  fun st =>
    match st !! buffer a with
    | Some contents =>
        (Ok tt, <[buffer a := splice contents l (Z.of_nat (byteOffset a) + offset)]> st)
    | None => (Ok tt, st)
    end.

(** [a.length] / [a.byteLength]. *)
Definition byteLength (a : Uint8Array) : Z := Z.of_nat (length a).

(** [new Uint8Array(n)]: a view on the whole of a new buffer of [n] zero
    bytes. *)
Definition alloc (n : Z) : M Uint8Array :=
  fun st =>
    let address := fresh (dom st) in
    (Ok {| buffer := address; byteOffset := 0; length := Z.to_nat n |},
     <[address := replicate (Z.to_nat n) x00]> st).

(** [a[i]]. *)
Definition read (a : Uint8Array) (i : jsval) : M jsval :=
  bs ← contents a; mret (get bs i).

(** [a[i] = v]: a write out of range is dropped. *)
Definition write (a : Uint8Array) (i : Z) (v : jsval) : M unit :=
  if (0 <=? i) && (i <? byteLength a) then poke a i [ToUint8 v] else mret tt.

(** [a.subarray(begin, end)]: a view on the same buffer. *)
Definition slice_view (a : Uint8Array) (begin end_ : jsval) : Uint8Array :=
  let len := byteLength a in
  let from := rel_index len begin in
  let to := match end_ with
            | JUndefined => len
            | _ => rel_index len end_
            end in
  {| buffer := buffer a;
     byteOffset := byteOffset a + Z.to_nat from;
     length := Z.to_nat (to - from) |}.

(** [target.set(source, offset)]. *)
Definition set_into (target source : Uint8Array) (offset : Z) : M unit :=
  bs ← contents source;
  if (0 <=? offset) && (offset + blen bs <=? byteLength target)
  then poke target offset bs
  else throw TruncatedInput.

(** The little-endian accesses of a [DataView] on the view [a]. *)
Definition getUintLE_at (n : Z) (a : Uint8Array) (offset : Z) : M jsval :=
  bs ← contents a; lift (getUintLE n bs offset).

Definition setUintLE_at (n : Z) (a : Uint8Array) (offset : Z) (v : jsval) : M unit :=
  if (0 <=? offset) && (offset + n <=? byteLength a)
  then poke a offset (le_bytes (Z.to_nat n) (ToInteger v mod 2 ^ (8 * n)))
  else throw TruncatedInput.

(** helpers/VarInt.ts *)
Module VarInt.

Fixpoint encode_loop (n : nat) (j : Z) (buffer : Uint8Array) (value : jsval)
    : M unit :=
  match n with
  | O => mret tt
  | S n =>
      _ ← write buffer (1 + j) (js_band value 0xff);
      encode_loop n (j + 1) buffer (js_floor_div value 256)
  end.

Definition encode (i : jsval) : M Uint8Array :=
  if js_lt i 0xFD then
    buffer ← alloc 1;
    _ ← write buffer 0 i;
    mret buffer
  else if js_lt i 0x10000 then
    buffer ← alloc 3;
    _ ← setUintLE_at 1 buffer 0 0xfd;
    _ ← setUintLE_at 2 buffer 1 i;
    mret buffer
  else if js_lt i 0x100000000 then
    buffer ← alloc 5;
    _ ← setUintLE_at 1 buffer 0 0xfe;
    _ ← setUintLE_at 4 buffer 1 i;
    mret buffer
  else if js_lt i 0x1000000000000 then
    buffer ← alloc 9;
    _ ← write buffer 0 0xff;
    _ ← encode_loop 6 0 buffer i;
    _ ← write buffer 7 0x00;
    _ ← write buffer 8 0x00;
    mret buffer
  else
    throw ValueTooLarge.

Definition readUInt16LE (buffer : Uint8Array) (offset : Z) : M jsval :=
  getUintLE_at 2 buffer offset.

Definition readUInt32LE (buffer : Uint8Array) (offset : Z) : M jsval :=
  getUintLE_at 4 buffer offset.

Fixpoint readUIntLE_loop (n : nat) (buffer : Uint8Array) (offset i : Z)
    (value multiplier : jsval) : M jsval :=
  match n with
  | O => mret value
  | S n =>
      x ← read buffer (offset + i);
      readUIntLE_loop n buffer offset (i + 1)
        (js_add value (js_mul x multiplier)) (js_mul multiplier 256)
  end.

Definition readUIntLE (buffer : Uint8Array) (offset length : Z) : M jsval :=
  readUIntLE_loop (Z.to_nat length) buffer offset 0 0 1.

Definition decode (b : Uint8Array) : M jsval :=
  if byteLength b =? 0 then throw EmptyInput
  else
    i ← read b 0;
    if js_seq i 0xfd then readUInt16LE b 1
    else if js_seq i 0xfe then readUInt32LE b 1
    else if js_seq i 0xff then readUIntLE b 1 6
    else mret i.

End VarInt.

(** helpers/BufferUtil.ts *)
Module BufferUtil.

Definition ensureBuffer (val : Uint8Array) : Uint8Array := val.

(** [concatBytes] of @noble/hashes: a new array, each part copied into it
    with [set]. *)
Definition concat (a b : Uint8Array) : M Uint8Array :=
  let sum := byteLength a + byteLength b in
  res ← alloc sum;
  _ ← set_into res a 0;
  _ ← set_into res b (byteLength a);
  mret res.

Section WithHost.
Variable env : host.

Fixpoint base64ToBytes_loop (rest : jsstring) (i : Z) (out : Uint8Array)
    : M unit :=
  match rest with
  | [] => mret tt
  | c :: rest => _ ← write out i c; base64ToBytes_loop rest (i + 1) out
  end.

Definition base64ToBytes (value : jsstring) : M Uint8Array :=
  match atob env with
  | None => throw Base64Unavailable
  | Some atob =>
      binary ← lift (atob value);
      out ← alloc (Z.of_nat (List.length binary));
      _ ← base64ToBytes_loop binary 0 out;
      mret out
  end.

Definition fromCharCode (chunk : Uint8Array) : M jsstring :=
  bs ← contents chunk; mret (map byte_val bs).

Fixpoint bytesToBase64_loop (n : nat) (value : Uint8Array) (chunkSize i : Z)
    (binary : jsstring) : M jsstring :=
  match n with
  | O => mret binary
  | S n =>
      if i <? byteLength value then
        let chunk := slice_view value i (i + chunkSize) in
        codes ← fromCharCode chunk;
        bytesToBase64_loop n value chunkSize (i + chunkSize) (binary ++ codes)
      else mret binary
  end.

Definition bytesToBase64 (value : Uint8Array) : M jsstring :=
  match btoa env with
  | None => throw Base64Unavailable
  | Some btoa =>
      let chunkSize := 0x8000 in
      binary ← bytesToBase64_loop (length value) value chunkSize 0 [];
      lift (btoa binary)
  end.

Definition fromBase64 (value : jsstring) : M Uint8Array := base64ToBytes value.
Definition toBase64 (value : Uint8Array) : M jsstring := bytesToBase64 value.

End WithHost.

End BufferUtil.

(** helpers/VarStr.ts *)
Module VarStr.

(** Modelled from the spec: helpers/VarStr.ts is not among the sources.
    Section 4.2: encode(bytes) is VarInt(length) followed by the bytes, in
    a new array. *)
Definition encode (s : Uint8Array) : M Uint8Array :=
  header ← VarInt.encode (byteLength s);
  BufferUtil.concat header s.

(** Modelled from the spec: helpers/VarStr.ts is not among the sources.
    Section 4.2, as for the value-level [VarStr.decode]; the bytes returned
    are a view on the argument (section 5 allows a view or a copy). *)
Definition decode (v : Uint8Array) : M Uint8Array :=
  len ← VarInt.decode v;
  header ← VarInt.encode len;
  let headerSize := byteLength header in
  if js_lt (byteLength v) (js_add headerSize len) then throw TruncatedInput
  else mret (slice_view v headerSize (js_add headerSize len)).

End VarStr.

(** helpers/Witness.ts *)
Module Witness.

Fixpoint serialize_loop (witnesses : list Uint8Array) (witnessStack : Uint8Array)
    : M Uint8Array :=
  match witnesses with
  | [] => mret witnessStack
  | witness :: witnesses =>
      item ← VarStr.encode witness;
      witnessStack ← BufferUtil.concat witnessStack item;
      serialize_loop witnesses witnessStack
  end.

Fixpoint deserialize_loop (n : nat) (witnessToDecode : Uint8Array)
    (witnessDecoded : list Uint8Array) : M (list Uint8Array) :=
  match n with
  | O => mret witnessDecoded
  | S n =>
      witness ← VarStr.decode witnessToDecode;
      let witnessDecoded := witnessDecoded ++ [witness] in
      item ← VarStr.encode witness;
      let witnessLength := byteLength item in
      let witnessToDecode :=
        BufferUtil.ensureBuffer (slice_view witnessToDecode witnessLength JUndefined) in
      deserialize_loop n witnessToDecode witnessDecoded
  end.

Section WithHost.
Variable env : host.

Definition serialize (witnesses : list Uint8Array) : M jsstring :=
  witnessStack ← VarInt.encode (Z.of_nat (List.length witnesses));
  witnessStack ← serialize_loop witnesses witnessStack;
  BufferUtil.toBase64 env witnessStack.

Definition deserialize (encodedWitness : jsstring + Uint8Array)
    : M (list Uint8Array) :=
  witnessToDecode ←
    match encodedWitness with
    | inl text => BufferUtil.fromBase64 env text
    | inr raw => mret raw
    end;
  witnessCount ← VarInt.decode witnessToDecode;
  header ← VarInt.encode witnessCount;
  let varIntLength := byteLength header in
  let witnessToDecode :=
    BufferUtil.ensureBuffer (slice_view witnessToDecode varIntLength JUndefined) in
  deserialize_loop (iterations witnessCount) witnessToDecode [].

End WithHost.

End Witness.

End Store.

(** Every buffer of [st] holds the same bytes in [st']. *)
Definition unchanged (st st' : Store.store) : Prop :=
  forall address contents,
    st !! address = Some contents -> st' !! address = Some contents.

(** The computation [m], run from any store in which the buffers of [st0]
    are unchanged, leaves them unchanged, and what it returns satisfies
    [Q]. *)
Definition preserves {A} (st0 : Store.store) (m : Store.M A) (Q : A -> Prop)
    : Prop :=
  forall st, unchanged st0 st ->
    unchanged st0 (m st).2 /\ forall x, (m st).1 = Ok x -> Q x.

(** The buffer of the view [a] is not one of [st0]. *)
Definition fresh_for (st0 : Store.store) (a : Store.Uint8Array) : Prop :=
  st0 !! Store.buffer a = None.

(** ** The two embeddings, related *)

(** The view [a] lies within its buffer in [st], and shows the bytes [bs]. *)
Definition shows (st : Store.store) (a : Store.Uint8Array) (bs : list byte)
    : Prop :=
  exists contents,
    st !! Store.buffer a = Some contents
    /\ (Store.byteOffset a + Store.length a <= length contents)%nat
    /\ bs = take (Store.length a) (drop (Store.byteOffset a) contents).

(** The view [a] is the whole of its buffer, which holds [bs]. *)
Definition owns (st : Store.store) (a : Store.Uint8Array) (bs : list byte)
    : Prop :=
  st !! Store.buffer a = Some bs
  /\ Store.byteOffset a = 0%nat /\ Store.length a = length bs.

(** The store-level computation [m], run from [st], does what the
    value-level result [r] says: it throws the same error, or returns
    something that [R] relates to the value of [r] in the final store; and
    the buffers of [st] are unchanged. *)
Definition sim {A B} (st : Store.store) (m : Store.M A) (r : result B)
    (R : Store.store -> A -> B -> Prop) : Prop :=
  match r with
  | Ok b => exists a st', m st = (Ok a, st') /\ unchanged st st' /\ R st' a b
  | Throw e => exists st', m st = (Throw e, st') /\ unchanged st st'
  end.

(** The same for a computation that builds an array of its own: nothing is
    said of the buffers of [st], only of what is returned. *)
Definition owned_result {A} (m : Store.M A) (st : Store.store)
    (r : result (list byte)) (P : A -> Store.store -> list byte -> Prop)
    : Prop :=
  match r with
  | Ok bs => exists x st', m st = (Ok x, st') /\ P x st' bs
  | Throw e => exists st', m st = (Throw e, st')
  end.

(** ** Sample inputs *)

(** A list of witnesses with an empty item, an item of 253 bytes (the first
    length of the 0xFD tier) and a duplicate. *)
Definition sample_witnesses : list (list byte) :=
  [[]; replicate 253 x07; [xde; xad]; [xde; xad]].

(** A strict-DER signature: R has 33 bytes, a 0x00 sign guard before the
    byte 0xF3; S has 32 bytes. *)
Definition sample_payload : list byte :=
  [x30; x45; x02; x21; x00; xf3] ++ replicate 31 x11
    ++ [x02; x20; x05] ++ replicate 31 x22.

(** A payload that passes every check before the one on [6 + lenR + lenS]:
    [lenR = 1] and [lenS = 2], so the sum is 9, but the payload has 8
    bytes. *)
Definition sample_bad_S_length : list byte :=
  [x30; x06; x02; x01; x01; x02; x02; x00].

(** ** Key (helpers/Key.ts) *)

Module Key.

(** [toXOnly]: [None] stands for the one exception it throws,
    Error("Invalid public key length"). *)
Definition toXOnly (publicKey : bytes) : option bytes :=
  if negb (blen publicKey =? 32) && negb (blen publicKey =? 33) then None
  else Some (if blen publicKey =? 32 then publicKey
             else subarray publicKey 1 33).

End Key.

(** The store-level [Key]: [toXOnly] returns the array itself, or a view on
    its buffer. *)
Module StoreKey.

Definition toXOnly (publicKey : Store.Uint8Array) : option Store.Uint8Array :=
  if negb (Store.byteLength publicKey =? 32)
     && negb (Store.byteLength publicKey =? 33) then None
  else Some (if Store.byteLength publicKey =? 32 then publicKey
             else Store.slice_view publicKey 1 33).

End StoreKey.

(** The unsigned integer that a list of bytes stands for, big-endian, as
    the R and S of a DER signature are. *)
Definition be_value (l : bytes) : Z := le_value (rev l).

(** * Properties *)

(** ** Bytes *)

Lemma byte_val_range (b : byte) : 0 <= byte_val b < 256.
Proof.
  unfold byte_val. pose proof (Byte.to_N_bounded b). lia.
Qed.

Lemma byte_val_of_Z (z : Z) : 0 <= z < 256 -> byte_val (byte_of_Z z) = z.
Proof.
  intros Hz. unfold byte_val, byte_of_Z.
  destruct (Byte.of_N (Z.to_N z)) as [b|] eqn:E.
  - apply Byte.to_of_N in E. lia.
  - apply Byte.of_N_None_iff in E. lia.
Qed.

Lemma byte_of_Z_val (b : byte) : byte_of_Z (byte_val b) = b.
Proof.
  unfold byte_val, byte_of_Z. rewrite N2Z.id, Byte.of_to_N. reflexivity.
Qed.

Lemma byte_val_inj (a b : byte) : byte_val a = byte_val b -> a = b.
Proof.
  intros H. rewrite <- (byte_of_Z_val a), <- (byte_of_Z_val b), H. reflexivity.
Qed.

Lemma byte_val_ToUint8 (z : Z) : byte_val (ToUint8 z) = z mod 256.
Proof.
  unfold ToUint8; simpl. apply byte_val_of_Z. apply Z.mod_pos_bound. lia.
Qed.

(** ** Little-endian values *)

Lemma length_le_bytes (n : nat) (z : Z) : length (le_bytes n z) = n.
Proof.
  revert z. induction n as [|n IH]; intros z; simpl; [reflexivity|].
  now rewrite IH.
Qed.

Lemma le_value_le_bytes (n : nat) (z : Z) :
  le_value (le_bytes n z) = z mod 256 ^ Z.of_nat n.
Proof.
  revert z. induction n as [|n IH]; intros z.
  - simpl. now rewrite Z.mod_1_r.
  - cbn [le_bytes le_value]. rewrite IH, byte_val_of_Z
      by (apply Z.mod_pos_bound; lia).
    rewrite Nat2Z.inj_succ, Z.pow_succ_r by lia.
    rewrite (Z.mul_comm 256), Z.rem_mul_r by lia. lia.
Qed.

Lemma le_value_app (l k : bytes) :
  le_value (l ++ k) = le_value l + 256 ^ Z.of_nat (length l) * le_value k.
Proof.
  induction l as [|x l IH]; cbn [app le_value length].
  - simpl. lia.
  - rewrite IH, Nat2Z.inj_succ, Z.pow_succ_r by lia. lia.
Qed.

Lemma le_value_range (l : bytes) : 0 <= le_value l < 256 ^ Z.of_nat (length l).
Proof.
  induction l as [|x l IH]; cbn [le_value length].
  - simpl. lia.
  - pose proof (byte_val_range x).
    rewrite Nat2Z.inj_succ, Z.pow_succ_r by lia. lia.
Qed.

(** ** Number operations *)

Lemma land_ToInt32_ff (z : Z) : Z.land (ToInt32 z) 0xff = z mod 256.
Proof.
  unfold ToInt32; cbn [ToNumber].
  change 0xff with (Z.ones 8). rewrite Z.land_ones by lia.
  change (2 ^ 8) with 256. change (2 ^ 32) with 4294967296.
  change (2 ^ 31) with 2147483648.
  destruct (Z.leb_spec 2147483648 (z mod 4294967296));
    Z.div_mod_to_equations; lia.
Qed.

Lemma js_lt_int (a b : Z) : js_lt a b = (a <? b).
Proof. reflexivity. Qed.

(** ** VarInt.encode, tier by tier *)

Lemma encode_loop_le_bytes (n : nat) (pre post tail : bytes) (z : Z) :
  length post = n ->
  VarInt.encode_loop n (Z.of_nat (length pre) - 1) (pre ++ post ++ tail) z
  = pre ++ le_bytes n z ++ tail.
Proof.
  revert pre post z. induction n as [|n IH]; intros pre post z Hlen.
  - destruct post; [|discriminate]. reflexivity.
  - destruct post as [|x post]; [discriminate|].
    cbn [VarInt.encode_loop le_bytes].
    unfold js_band, js_floor_div. cbn [ToNumber]. rewrite land_ToInt32_ff.
    unfold put. destruct (Z.ltb_spec (1 + (Z.of_nat (length pre) - 1)) 0); [lia|].
    replace (Z.to_nat (1 + (Z.of_nat (length pre) - 1))) with (length pre + 0)%nat by lia.
    rewrite insert_app_r. cbn [insert list_insert app].
    specialize (IH (pre ++ [ToUint8 (z mod 256)]) post (z / 256)).
    rewrite length_app in IH. cbn [length] in IH.
    replace (Z.of_nat (length pre + 1) - 1) with (Z.of_nat (length pre) - 1 + 1) in IH by lia.
    rewrite <- !app_assoc in IH. cbn [app] in IH.
    rewrite IH by (simpl in Hlen; lia).
    unfold ToUint8. cbn [ToNumber]. rewrite Z.mod_mod by lia. reflexivity.
Qed.

Lemma encode_tier1 (i : Z) :
  i < 0xFD -> VarInt.encode i = Ok [ToUint8 i].
Proof.
  intros H. unfold VarInt.encode. rewrite js_lt_int.
  destruct (Z.ltb_spec i 0xFD); [|lia]. reflexivity.
Qed.

Ltac unfold_view :=
  unfold setUintLE, getUintLE, in_view, new_Uint8Array, blen, splice, put,
    mbind, mret, result_bind, result_ret, rbind, ToInteger, ToUint8;
  cbn [ToNumber].

Lemma encode_tier2_run (i : Z) :
  0 <= i < 0x10000 ->
  (buffer ← setUintLE 1 (new_Uint8Array 3) 0 0xfd;
   buffer ← setUintLE 2 buffer 1 i;
   Ok buffer) = Ok (xfd :: le_bytes 2 i).
Proof.
  intros H. unfold_view. simpl. change (2 ^ (8 * 2)) with 65536.
  rewrite (Z.mod_small i 65536) by lia. reflexivity.
Qed.

Lemma encode_tier3_run (i : Z) :
  0 <= i < 0x100000000 ->
  (buffer ← setUintLE 1 (new_Uint8Array 5) 0 0xfe;
   buffer ← setUintLE 4 buffer 1 i;
   Ok buffer) = Ok (xfe :: le_bytes 4 i).
Proof.
  intros H. unfold_view. simpl. change (2 ^ (8 * 4)) with 4294967296.
  rewrite (Z.mod_small i 4294967296) by lia. reflexivity.
Qed.

Lemma encode_tier2 (i : Z) :
  0xFD <= i < 0x10000 -> VarInt.encode i = Ok (xfd :: le_bytes 2 i).
Proof.
  intros H. unfold VarInt.encode. rewrite !js_lt_int.
  destruct (Z.ltb_spec i 0xFD); [lia|].
  destruct (Z.ltb_spec i 0x10000); [|lia].
  apply encode_tier2_run. lia.
Qed.

Lemma encode_tier3 (i : Z) :
  0x10000 <= i < 0x100000000 -> VarInt.encode i = Ok (xfe :: le_bytes 4 i).
Proof.
  intros H. unfold VarInt.encode. rewrite !js_lt_int.
  destruct (Z.ltb_spec i 0xFD); [lia|].
  destruct (Z.ltb_spec i 0x10000); [lia|].
  destruct (Z.ltb_spec i 0x100000000); [|lia].
  apply encode_tier3_run. lia.
Qed.

Lemma encode_tier4 (i : Z) :
  0x100000000 <= i < 0x1000000000000 ->
  VarInt.encode i = Ok (xff :: le_bytes 6 i ++ [x00; x00]).
Proof.
  intros H. unfold VarInt.encode. rewrite !js_lt_int.
  destruct (Z.ltb_spec i 0xFD); [lia|].
  destruct (Z.ltb_spec i 0x10000); [lia|].
  destruct (Z.ltb_spec i 0x100000000); [lia|].
  destruct (Z.ltb_spec i 0x1000000000000); [|lia].
  change (put (new_Uint8Array 9) 0 0xff)
    with ([xff] ++ [x00; x00; x00; x00; x00; x00] ++ [x00; x00]).
  change 0 with (Z.of_nat (length [xff]) - 1) at 1.
  rewrite encode_loop_le_bytes by reflexivity.
  pose proof (length_le_bytes 6 i) as Hl.
  destruct (le_bytes 6 i) as [|b0 [|b1 [|b2 [|b3 [|b4 [|b5 [|]]]]]]];
    try discriminate Hl.
  reflexivity.
Qed.

(** ** VarInt.decode, tier by tier *)

Lemma decode_cons (x : byte) (rest : bytes) :
  VarInt.decode (x :: rest) =
    if byte_val x =? 0xfd then VarInt.readUInt16LE (x :: rest) 1
    else if byte_val x =? 0xfe then VarInt.readUInt32LE (x :: rest) 1
    else if byte_val x =? 0xff then Ok (VarInt.readUIntLE (x :: rest) 1 6)
    else Ok (JInt (byte_val x)).
Proof.
  unfold VarInt.decode, blen. cbn [length].
  destruct (Z.eqb_spec (Z.of_nat (S (length rest))) 0); [lia|]. reflexivity.
Qed.

Lemma decode_tier1 (x : byte) (rest : bytes) :
  byte_val x < 0xFD -> VarInt.decode (x :: rest) = Ok (JInt (byte_val x)).
Proof.
  intros H. rewrite decode_cons.
  destruct (Z.eqb_spec (byte_val x) 0xfd); [lia|].
  destruct (Z.eqb_spec (byte_val x) 0xfe); [lia|].
  destruct (Z.eqb_spec (byte_val x) 0xff); [lia|]. reflexivity.
Qed.

Lemma decode_tier2 (b0 b1 : byte) (rest : bytes) :
  VarInt.decode (xfd :: b0 :: b1 :: rest) = Ok (JInt (le_value [b0; b1])).
Proof.
  rewrite decode_cons. change (byte_val xfd) with 253. cbn [Z.eqb Pos.eqb].
  unfold VarInt.readUInt16LE, getUintLE, in_view, blen. cbn [length].
  destruct (Z.leb_spec (1 + 2) (Z.of_nat (S (S (S (length rest)))))); [|lia].
  reflexivity.
Qed.

Lemma decode_tier3 (b0 b1 b2 b3 : byte) (rest : bytes) :
  VarInt.decode (xfe :: b0 :: b1 :: b2 :: b3 :: rest)
  = Ok (JInt (le_value [b0; b1; b2; b3])).
Proof.
  rewrite decode_cons. change (byte_val xfe) with 254. cbn [Z.eqb Pos.eqb].
  unfold VarInt.readUInt32LE, getUintLE, in_view, blen. cbn [length].
  destruct (Z.leb_spec (1 + 4)
              (Z.of_nat (S (S (S (S (S (length rest)))))))); [|lia].
  reflexivity.
Qed.

Lemma decode_tier4 (b0 b1 b2 b3 b4 b5 : byte) (rest : bytes) :
  VarInt.decode (xff :: b0 :: b1 :: b2 :: b3 :: b4 :: b5 :: rest)
  = Ok (JInt (le_value [b0; b1; b2; b3; b4; b5])).
Proof.
  rewrite decode_cons. change (byte_val xff) with 255. cbn [Z.eqb Pos.eqb].
  unfold VarInt.readUIntLE. simpl.
  unfold js_add, js_mul, js_arith. cbn [ToNumber]. f_equal. f_equal. lia.
Qed.

(** ** VarInt: encoding followed by decoding *)

(** The encoding of [i] is a header that [decode] reads back whatever
    follows it. *)
Lemma varint_header (i : Z) :
  0 <= i < 0x1000000000000 ->
  exists hdr, VarInt.encode i = Ok hdr
    /\ blen hdr = tier_length i
    /\ forall rest, VarInt.decode (hdr ++ rest) = Ok (JInt i).
Proof.
  intros Hi. unfold tier_length.
  destruct (Z.ltb_spec i 0xFD); [|destruct (Z.ltb_spec i 0x10000);
    [|destruct (Z.ltb_spec i 0x100000000)]].
  - exists [ToUint8 i]. split; [apply encode_tier1; lia|]. split; [reflexivity|].
    intros rest. cbn [app].
    assert (byte_val (ToUint8 i) = i) as Hv
      by (rewrite byte_val_ToUint8; apply Z.mod_small; lia).
    rewrite decode_tier1; rewrite Hv; [reflexivity|lia].
  - exists (xfd :: le_bytes 2 i). split; [apply encode_tier2; lia|].
    split; [reflexivity|]. intros rest.
    pose proof (le_value_le_bytes 2 i) as Hv. cbn [le_bytes] in *. cbn [app].
    rewrite decode_tier2, Hv. rewrite Z.mod_small by (simpl; lia). reflexivity.
  - exists (xfe :: le_bytes 4 i). split; [apply encode_tier3; lia|].
    split; [reflexivity|]. intros rest.
    pose proof (le_value_le_bytes 4 i) as Hv. cbn [le_bytes] in *. cbn [app].
    rewrite decode_tier3, Hv. rewrite Z.mod_small by (simpl; lia). reflexivity.
  - exists (xff :: le_bytes 6 i ++ [x00; x00]).
    split; [apply encode_tier4; lia|]. split; [reflexivity|]. intros rest.
    pose proof (le_value_le_bytes 6 i) as Hv. cbn [le_bytes] in *. cbn [app].
    rewrite decode_tier4, Hv. rewrite Z.mod_small by (simpl; lia). reflexivity.
Qed.

(** C1. For every integer [0 <= i < 0x1000000000000], decoding the encoding
    of [i] gives [i] back, and the encoding is 1 byte long when [i < 0xFD],
    3 bytes when [0xFD <= i < 0x10000], 5 bytes when
    [0x10000 <= i < 0x100000000] and 9 bytes when
    [0x100000000 <= i < 0x1000000000000]: a boundary value takes the next
    tier. *)
Theorem varint_roundtrip (i : Z) :
  0 <= i < 0x1000000000000 ->
  exists bs, VarInt.encode i = Ok bs
    /\ VarInt.decode bs = Ok (JInt i)
    /\ (i < 0xFD -> blen bs = 1)
    /\ (0xFD <= i < 0x10000 -> blen bs = 3)
    /\ (0x10000 <= i < 0x100000000 -> blen bs = 5)
    /\ (0x100000000 <= i < 0x1000000000000 -> blen bs = 9).
Proof.
  intros Hi. destruct (varint_header i Hi) as (hdr & He & Hl & Hd).
  exists hdr. split; [exact He|]. split.
  - specialize (Hd []). now rewrite app_nil_r in Hd.
  - rewrite Hl. unfold tier_length.
    destruct (Z.ltb_spec i 0xFD); [|destruct (Z.ltb_spec i 0x10000);
      [|destruct (Z.ltb_spec i 0x100000000)]]; repeat split; lia.
Qed.

Lemma varint_roundtrip_witness :
  exists bs, VarInt.encode 0x10000 = Ok bs
    /\ VarInt.decode bs = Ok (JInt 0x10000)
    /\ (0x10000 < 0xFD -> blen bs = 1)
    /\ (0xFD <= 0x10000 < 0x10000 -> blen bs = 3)
    /\ (0x10000 <= 0x10000 < 0x100000000 -> blen bs = 5)
    /\ (0x100000000 <= 0x10000 < 0x1000000000000 -> blen bs = 9).
Proof. apply (varint_roundtrip 0x10000). lia. Defined.

Lemma encode_throws_iff (i : Z) :
  VarInt.encode i = Throw ValueTooLarge <-> 0x1000000000000 <= i.
Proof.
  unfold VarInt.encode. rewrite !js_lt_int.
  destruct (Z.ltb_spec i 0xFD); [split; [discriminate|lia]|].
  destruct (Z.ltb_spec i 0x10000).
  { rewrite encode_tier2_run by lia. split; [discriminate|lia]. }
  destruct (Z.ltb_spec i 0x100000000).
  { rewrite encode_tier3_run by lia. split; [discriminate|lia]. }
  destruct (Z.ltb_spec i 0x1000000000000); [split; [discriminate|lia]|].
  split; [lia|reflexivity].
Qed.

Lemma encode_ok_bound (i : Z) (bs : bytes) :
  VarInt.encode i = Ok bs -> i < 0x1000000000000.
Proof.
  intros H. destruct (Z.lt_ge_cases i 0x1000000000000) as [|Hge]; [assumption|].
  apply encode_throws_iff in Hge. congruence.
Qed.

(** C3. [VarInt.encode i] fails with [ValueTooLarge] exactly when
    [i >= 0x1000000000000]; for every non-negative integer below that bound
    it returns an encoding. *)
Theorem varint_encode_too_large (i : Z) :
  (VarInt.encode i = Throw ValueTooLarge <-> 0x1000000000000 <= i)
  /\ (0 <= i < 0x1000000000000 -> exists bs, VarInt.encode i = Ok bs).
Proof.
  split; [apply encode_throws_iff|].
  intros Hi. destruct (varint_header i Hi) as (hdr & He & _). now exists hdr.
Qed.

Lemma varint_encode_too_large_witness :
  (VarInt.encode 0xFFFFFFFFFFFF = Throw ValueTooLarge
     <-> 0x1000000000000 <= 0xFFFFFFFFFFFF)
  /\ exists bs, VarInt.encode 0xFFFFFFFFFFFF = Ok bs.
Proof.
  destruct (varint_encode_too_large 0xFFFFFFFFFFFF) as [H1 H2].
  split; [exact H1|apply H2; lia].
Defined.

(** ** VarInt.decode on short buffers *)

Lemma decode_empty : VarInt.decode [] = Throw EmptyInput.
Proof. reflexivity. Qed.

Lemma blen_0 (b : bytes) : blen b = 0 -> b = [].
Proof. destruct b; [reflexivity|]. unfold blen. simpl. lia. Qed.

(** What [decode] does on a tagged buffer that is too short for its tier:
    the DataView accesses of the 0xFD and 0xFE tiers throw, the loop of
    [readUIntLE] reads [undefined] and returns NaN. *)
Lemma decode_short_tiers (b : bytes) :
  (blen b = 0 -> VarInt.decode b = Throw EmptyInput)
  /\ (get b 0 = 0xfd -> blen b < 3 -> VarInt.decode b = Throw TruncatedInput)
  /\ (get b 0 = 0xfe -> blen b < 5 -> VarInt.decode b = Throw TruncatedInput)
  /\ (get b 0 = 0xff -> blen b < 7 -> VarInt.decode b = Ok JNaN).
Proof.
  split; [intros H; apply blen_0 in H; now subst|].
  destruct b as [|x rest]; [repeat split; discriminate|].
  rewrite decode_cons. cbn [get Z.ltb Z.compare Z.to_nat lookup list_lookup].
  unfold blen. cbn [length].
  repeat split; intros Hx Hlen; injection Hx as Hx; rewrite Hx;
    cbn [Z.eqb Pos.eqb].
  - unfold VarInt.readUInt16LE, getUintLE, in_view, blen. cbn [length].
    destruct (Z.leb_spec (1 + 2) (Z.of_nat (S (length rest)))); [lia|].
    reflexivity.
  - unfold VarInt.readUInt32LE, getUintLE, in_view, blen. cbn [length].
    destruct (Z.leb_spec (1 + 4) (Z.of_nat (S (length rest)))); [lia|].
    reflexivity.
  - destruct rest as [|b0 [|b1 [|b2 [|b3 [|b4 [|b5 rest]]]]]];
      try reflexivity.
    simpl in Hlen. lia.
Qed.

(** C2, at the input that refutes it: on the one-byte buffer [0xFF], and on
    [0xFF 0x01 0x02], the tag asks for 6 payload bytes that are not there,
    and [decode] returns NaN instead of failing. *)
Theorem varint_decode_truncated_ff :
  VarInt.decode [xff] = Ok JNaN
  /\ VarInt.decode [xff; x01; x02] = Ok JNaN.
Proof. split; reflexivity. Qed.

(** C10. For every negative integer [i], [VarInt.encode i] does not fail: it
    takes the one-byte branch and returns the single byte [i mod 256], so
    decoding that byte does not give [i] back. *)
Theorem varint_encode_negative (i : Z) :
  i < 0 ->
  VarInt.encode i = Ok [ToUint8 i]
  /\ byte_val (ToUint8 i) = i mod 256
  /\ VarInt.decode [ToUint8 i] <> Ok (JInt i).
Proof.
  intros Hi. split; [apply encode_tier1; lia|].
  split; [apply byte_val_ToUint8|].
  pose proof (byte_val_range (ToUint8 i)) as Hr.
  rewrite decode_cons.
  destruct (byte_val (ToUint8 i) =? 0xfd); [discriminate|].
  destruct (byte_val (ToUint8 i) =? 0xfe); [discriminate|].
  destruct (byte_val (ToUint8 i) =? 0xff); [discriminate|].
  intros H. injection H as H. lia.
Qed.

Lemma varint_encode_negative_witness :
  VarInt.encode (-1) = Ok [xff]
  /\ byte_val xff = (-1) mod 256
  /\ VarInt.decode [xff] <> Ok (JInt (-1)).
Proof. apply (varint_encode_negative (-1)). lia. Defined.

(** ** Typed arrays *)

Lemma blen_app (a b : bytes) : blen (a ++ b) = blen a + blen b.
Proof. unfold blen. rewrite length_app. lia. Qed.

Lemma blen_nonneg (b : bytes) : 0 <= blen b.
Proof. unfold blen. lia. Qed.

Lemma subarray_from (b : bytes) (k : Z) :
  0 <= k <= blen b -> subarray b k JUndefined = drop (Z.to_nat k) b.
Proof.
  intros Hk. unfold subarray, rel_index, ToInteger. cbn [ToNumber].
  destruct (Z.ltb_spec k 0); [lia|]. rewrite Z.min_l by lia.
  apply take_ge. rewrite length_drop. unfold blen in *. lia.
Qed.

Lemma subarray_range (b : bytes) (from to : Z) :
  0 <= from <= to ->
  subarray b from to = take (Z.to_nat (to - from)) (drop (Z.to_nat from) b).
Proof.
  intros Hf. unfold subarray, rel_index, ToInteger. cbn [ToNumber].
  destruct (Z.ltb_spec from 0); [lia|]. destruct (Z.ltb_spec to 0); [lia|].
  pose proof (blen_nonneg b) as Hb. unfold blen in *.
  destruct (Z.le_gt_cases from (Z.of_nat (length b))) as [Hfl|Hfl].
  - rewrite (Z.min_l from) by lia.
    destruct (Z.le_gt_cases to (Z.of_nat (length b))).
    + rewrite Z.min_l by lia. reflexivity.
    + rewrite Z.min_r by lia.
      rewrite !take_ge by (rewrite length_drop; lia). reflexivity.
  - rewrite !drop_ge by lia. now rewrite !take_nil.
Qed.

Lemma subarray_app_from (a b : bytes) :
  subarray (a ++ b) (blen a) JUndefined = b.
Proof.
  rewrite subarray_from by (rewrite blen_app; pose proof (blen_nonneg a);
    pose proof (blen_nonneg b); lia).
  unfold blen. rewrite Nat2Z.id. apply drop_app_length.
Qed.

Lemma subarray_app_range (a b c : bytes) :
  subarray (a ++ b ++ c) (blen a) (blen a + blen b) = b.
Proof.
  pose proof (blen_nonneg a). pose proof (blen_nonneg b).
  pose proof (blen_nonneg c).
  rewrite subarray_range by lia.
  replace (blen a + blen b - blen a) with (blen b) by lia.
  unfold blen. rewrite !Nat2Z.id, drop_app_length. apply take_app_length.
Qed.

(** ** BufferUtil: base64 *)

Lemma bytesToBase64_loop_all (value : bytes) (chunkSize : Z) (n : nat)
    (i : Z) (binary : jsstring) :
  0 < chunkSize -> 0 <= i -> (Z.to_nat (blen value - i) <= n)%nat ->
  BufferUtil.bytesToBase64_loop n value chunkSize i binary
  = binary ++ BufferUtil.fromCharCode (drop (Z.to_nat i) value).
Proof.
  intros Hc. revert i binary.
  induction n as [|n IH]; intros i binary Hi Hn; cbn [BufferUtil.bytesToBase64_loop].
  - rewrite drop_ge by (unfold blen in Hn; lia). cbn. now rewrite app_nil_r.
  - destruct (Z.ltb_spec i (blen value)).
    + rewrite IH by lia. rewrite subarray_range by lia.
      rewrite <- app_assoc. f_equal. unfold BufferUtil.fromCharCode.
      rewrite <- map_app. f_equal.
      replace (Z.to_nat (i + chunkSize))
        with (Z.to_nat i + Z.to_nat (i + chunkSize - i))%nat by lia.
      rewrite <- drop_drop. apply take_drop.
    + rewrite drop_ge by (unfold blen in *; lia). cbn. now rewrite app_nil_r.
Qed.

Lemma base64ToBytes_loop_all (rest : jsstring) (pre post : bytes) :
  length post = length rest ->
  BufferUtil.base64ToBytes_loop rest (Z.of_nat (length pre)) (pre ++ post)
  = pre ++ map (fun c : Z => ToUint8 c) rest.
Proof.
  revert pre post. induction rest as [|c rest IH]; intros pre post Hlen.
  - destruct post; [reflexivity|discriminate].
  - destruct post as [|x post]; [discriminate|].
    cbn [BufferUtil.base64ToBytes_loop map]. unfold put.
    destruct (Z.ltb_spec (Z.of_nat (length pre)) 0); [lia|].
    rewrite Nat2Z.id. replace (length pre) with (length pre + 0)%nat at 2 by lia.
    rewrite insert_app_r. cbn [insert list_insert].
    specialize (IH (pre ++ [ToUint8 c]) post).
    rewrite length_app, <- !app_assoc in IH. cbn [length app] in IH.
    replace (Z.of_nat (length pre + 1)) with (Z.of_nat (length pre) + 1) in IH by lia.
    apply IH. simpl in Hlen. lia.
Qed.

Lemma ToUint8_byte_val (x : byte) : ToUint8 (byte_val x) = x.
Proof.
  unfold ToUint8. cbn [ToNumber].
  rewrite Z.mod_small by apply byte_val_range. apply byte_of_Z_val.
Qed.

(** On a host that keeps its contract, [fromBase64] undoes [toBase64]. *)
Lemma base64_roundtrip (env : host) (value : bytes) :
  base64_host env ->
  exists text, BufferUtil.toBase64 env value = Ok text
    /\ BufferUtil.fromBase64 env text = Ok value.
Proof.
  intros (a & b & Ha & Hb & Hab).
  unfold BufferUtil.toBase64, BufferUtil.bytesToBase64,
    BufferUtil.fromBase64, BufferUtil.base64ToBytes.
  rewrite Ha, Hb.
  rewrite bytesToBase64_loop_all by (unfold blen; lia).
  cbn [Z.to_nat drop app].
  destruct (Hab (BufferUtil.fromCharCode value)) as (text & Ht & Hd).
  { unfold BufferUtil.fromCharCode. apply Forall_map, Forall_forall.
    intros x _. apply byte_val_range. }
  exists text. split; [exact Ht|]. rewrite Hd. cbn [mbind result_bind rbind].
  f_equal.
  pose proof (base64ToBytes_loop_all (BufferUtil.fromCharCode value) []
    (new_Uint8Array (Z.of_nat (length (BufferUtil.fromCharCode value))))) as Hl.
  change (Z.of_nat (length (@nil byte))) with 0 in Hl.
  cbn [app] in Hl. rewrite Hl.
  - unfold BufferUtil.fromCharCode. rewrite map_map.
    rewrite <- (map_id value) at 2. apply map_ext. apply ToUint8_byte_val.
  - unfold new_Uint8Array. now rewrite length_replicate, Nat2Z.id.
Qed.

(** ** The reference host keeps the contract *)

Lemma alphabet_index_char (n : Z) :
  0 <= n < 64 -> Base64.alphabet_index (Base64.alphabet_char n) = Some n.
Proof.
  intros Hn. unfold Base64.alphabet_char, Base64.alphabet_index.
  repeat match goal with
         | |- context [?a <? ?b] => destruct (Z.ltb_spec a b)
         | |- context [?a <=? ?b] => destruct (Z.leb_spec a b)
         | |- context [?a =? ?b] => destruct (Z.eqb_spec a b)
         end; cbn [andb]; try lia; f_equal; lia.
Qed.

Lemma alphabet_char_not_pad (n : Z) :
  0 <= n < 64 -> (Base64.alphabet_char n =? Base64.pad) = false.
Proof.
  intros Hn. unfold Base64.alphabet_char, Base64.pad. apply Z.eqb_neq.
  repeat match goal with
         | |- context [?a <? ?b] => destruct (Z.ltb_spec a b)
         | |- context [?a =? ?b] => destruct (Z.eqb_spec a b)
         end; lia.
Qed.

Lemma decode_encode_groups (n : nat) (binary : jsstring) :
  (length binary <= n)%nat ->
  Forall (fun c => 0 <= c < 256) binary ->
  Base64.decode_groups (Base64.encode_groups binary) = Ok binary.
Proof.
  revert binary. induction n as [|n IH]; intros binary Hn Hall.
  { destruct binary; [reflexivity|simpl in Hn; lia]. }
  destruct binary as [|a [|b [|c rest]]]; [reflexivity| | |].
  - apply Forall_cons in Hall as [Ha _].
    cbn [Base64.encode_groups Base64.decode_groups].
    rewrite !alphabet_index_char by (Z.div_mod_to_equations; lia).
    rewrite Z.eqb_refl. cbn [andb Base64.is_nil].
    do 2 f_equal. Z.div_mod_to_equations; lia.
  - apply Forall_cons in Hall as [Ha Hall].
    apply Forall_cons in Hall as [Hb _].
    cbn [Base64.encode_groups Base64.decode_groups].
    rewrite !alphabet_index_char by (Z.div_mod_to_equations; lia).
    rewrite alphabet_char_not_pad by (Z.div_mod_to_equations; lia).
    rewrite Z.eqb_refl. cbn [andb Base64.is_nil].
    f_equal. f_equal; [|f_equal]; Z.div_mod_to_equations; lia.
  - apply Forall_cons in Hall as [Ha Hall].
    apply Forall_cons in Hall as [Hb Hall].
    apply Forall_cons in Hall as [Hc Hall].
    cbn [Base64.encode_groups Base64.decode_groups].
    rewrite !alphabet_index_char by (Z.div_mod_to_equations; lia).
    rewrite !alphabet_char_not_pad by (Z.div_mod_to_equations; lia).
    cbn [andb]. rewrite IH by (simpl in Hn; assumption || lia).
    cbn [mbind result_bind rbind].
    f_equal. f_equal; [|f_equal; [|f_equal]]; Z.div_mod_to_equations; lia.
Qed.

Lemma reference_host : base64_host Base64.env.
Proof.
  exists Base64.decode, Base64.encode. split; [reflexivity|].
  split; [reflexivity|]. intros binary Hall.
  exists (Base64.encode_groups binary). split.
  - unfold Base64.encode.
    assert (forallb (fun c => (0 <=? c) && (c <? 256)) binary = true) as ->;
      [|reflexivity].
    apply forallb_forall. intros c Hc.
    rewrite Forall_forall in Hall. rewrite <- list_elem_of_In in Hc.
    specialize (Hall c Hc). apply andb_true_iff. split; lia.
  - apply (decode_encode_groups (length binary)); [lia|assumption].
Qed.

(** ** VarStr and Witness *)

(** A byte string short enough for its length to be a VarInt. *)
Lemma varstr_item (s : bytes) :
  blen s < 0x1000000000000 ->
  exists item, VarStr.encode s = Ok item
    /\ forall rest, VarStr.decode (item ++ rest) = Ok s.
Proof.
  intros Hs. pose proof (blen_nonneg s) as H0.
  destruct (varint_header (blen s)) as (hdr & He & _ & Hd); [lia|].
  exists (hdr ++ s). unfold VarStr.encode, VarStr.decode, BufferUtil.concat.
  rewrite He. split; [reflexivity|]. intros rest.
  rewrite <- app_assoc, Hd. cbn [mbind result_bind rbind]. rewrite He.
  cbn [mbind result_bind rbind]. unfold js_lt, js_cmp, js_add, js_arith.
  cbn [ToNumber]. rewrite !blen_app. pose proof (blen_nonneg rest).
  pose proof (blen_nonneg hdr).
  destruct (Z.ltb_spec (blen hdr + (blen s + blen rest)) (blen hdr + blen s));
    [lia|].
  now rewrite subarray_app_range.
Qed.

Lemma serialize_loop_items (witnesses : list bytes) :
  Forall (fun w => blen w < 0x1000000000000) witnesses ->
  exists body,
    (forall witnessStack,
       Witness.serialize_loop witnesses witnessStack = Ok (witnessStack ++ body))
    /\ (forall extra decoded,
       Witness.deserialize_loop (length witnesses) (body ++ extra) decoded
       = Ok (decoded ++ witnesses)).
Proof.
  induction 1 as [|w ws Hw _ (body & Hs & Hd)].
  - exists []. split; intros; cbn; now rewrite app_nil_r.
  - destruct (varstr_item w Hw) as (item & He & Hdec).
    exists (item ++ body). split.
    + intros stack. cbn [Witness.serialize_loop]. rewrite He.
      cbn [mbind result_bind rbind]. unfold BufferUtil.concat.
      now rewrite Hs, app_assoc.
    + intros extra decoded. cbn [length Witness.deserialize_loop].
      rewrite <- app_assoc, Hdec. cbn [mbind result_bind rbind]. rewrite He.
      cbn [mbind result_bind rbind]. unfold BufferUtil.ensureBuffer.
      rewrite subarray_app_from, Hd, <- app_assoc. reflexivity.
Qed.

(** The witness stack of a list of witnesses, and what [deserialize_bytes]
    makes of it when any bytes follow. *)
Lemma witness_stack (witnesses : list bytes) :
  Z.of_nat (length witnesses) < 0x1000000000000 ->
  Forall (fun w => blen w < 0x1000000000000) witnesses ->
  exists stack, Witness.serialize_stack witnesses = Ok stack
    /\ forall extra,
         Witness.deserialize_bytes (stack ++ extra) = Ok witnesses.
Proof.
  intros Hn Hall.
  destruct (varint_header (Z.of_nat (length witnesses)))
    as (hdr & He & _ & Hd); [lia|].
  destruct (serialize_loop_items witnesses Hall) as (body & Hs & Hl).
  exists (hdr ++ body). unfold Witness.serialize_stack, Witness.deserialize_bytes.
  rewrite He. cbn [mbind result_bind rbind]. split; [apply Hs|].
  intros extra. rewrite <- app_assoc, Hd. cbn [mbind result_bind rbind].
  rewrite He. cbn [mbind result_bind rbind]. unfold BufferUtil.ensureBuffer.
  rewrite subarray_app_from. unfold iterations, ToInteger.
  cbn [ToNumber]. rewrite Nat2Z.id. apply Hl.
Qed.

Lemma varstr_encode_bound (w item : bytes) :
  VarStr.encode w = Ok item -> blen w < 0x1000000000000.
Proof.
  unfold VarStr.encode. destruct (VarInt.encode (blen w)) as [hdr|e] eqn:E;
    [|discriminate].
  intros _. eapply encode_ok_bound, E.
Qed.

Lemma serialize_loop_bound (witnesses : list bytes) (witnessStack r : bytes) :
  Witness.serialize_loop witnesses witnessStack = Ok r ->
  Forall (fun w => blen w < 0x1000000000000) witnesses.
Proof.
  revert witnessStack. induction witnesses as [|w ws IH]; intros stack H.
  - constructor.
  - cbn [Witness.serialize_loop] in H.
    destruct (VarStr.encode w) as [item|e] eqn:E; [|discriminate].
    cbn [mbind result_bind rbind] in H. constructor; [|eapply IH, H].
    eapply varstr_encode_bound, E.
Qed.

(** A list has a witness stack exactly when it has fewer than 2^48 items,
    each shorter than 2^48 bytes. *)
Lemma serialize_stack_bound (witnesses : list bytes) (stack : bytes) :
  Witness.serialize_stack witnesses = Ok stack ->
  Z.of_nat (length witnesses) < 0x1000000000000
  /\ Forall (fun w => blen w < 0x1000000000000) witnesses.
Proof.
  unfold Witness.serialize_stack.
  destruct (VarInt.encode (Z.of_nat (length witnesses))) as [hdr|e] eqn:E;
    [|discriminate].
  cbn [mbind result_bind rbind]. intros H. split.
  - eapply encode_ok_bound, E.
  - eapply serialize_loop_bound, H.
Qed.

(** C4. On a host whose [atob] undoes [btoa], every list of witnesses that
    [serialize] accepts deserializes from its serialization to the same
    items in the same order, and [serialize] accepts every list of fewer
    than 2^48 items that are each shorter than 2^48 bytes (which every array
    of the platform is).  The empty list is serialized as the base64 text of
    the single byte 0 (the VarInt 0) and deserializes to the empty list. *)
Theorem witness_roundtrip (env : host) (items : list bytes) :
  base64_host env ->
  (Z.of_nat (length items) < 0x1000000000000 ->
   Forall (fun w => blen w < 0x1000000000000) items ->
   exists text, Witness.serialize env items = Ok text)
  /\ (forall text, Witness.serialize env items = Ok text ->
       Witness.deserialize env (inl text) = Ok items)
  /\ Witness.serialize_stack [] = Ok [x00]
  /\ Witness.serialize env [] = BufferUtil.toBase64 env [x00]
  /\ (exists text, Witness.serialize env [] = Ok text
       /\ Witness.deserialize env (inl text) = Ok []).
Proof.
  intros Henv.
  assert (forall ws text, Witness.serialize env ws = Ok text ->
            Witness.deserialize env (inl text) = Ok ws) as Hrt.
  { intros ws text. unfold Witness.serialize, Witness.deserialize.
    destruct (Witness.serialize_stack ws) as [stack|e] eqn:Hs; [|discriminate].
    cbn [mbind result_bind rbind]. intros Ht.
    destruct (serialize_stack_bound ws stack Hs) as [Hn Hall].
    destruct (witness_stack ws Hn Hall) as (stack' & Hs' & Hd).
    rewrite Hs in Hs'. injection Hs' as <-.
    destruct (base64_roundtrip env stack Henv) as (text' & Ht' & Hf).
    rewrite Ht in Ht'. injection Ht' as <-.
    rewrite Hf. cbn [mbind result_bind rbind].
    specialize (Hd []). now rewrite app_nil_r in Hd. }
  assert (forall ws, Z.of_nat (length ws) < 0x1000000000000 ->
            Forall (fun w => blen w < 0x1000000000000) ws ->
            exists text, Witness.serialize env ws = Ok text) as Htot.
  { intros ws Hn Hall. destruct (witness_stack ws Hn Hall) as (stack & Hs & _).
    destruct (base64_roundtrip env stack Henv) as (text & Ht & _).
    exists text. unfold Witness.serialize. now rewrite Hs. }
  split; [apply Htot|]. split; [apply Hrt|].
  split; [reflexivity|]. split; [reflexivity|].
  destruct (Htot []) as (text & Ht); [simpl; lia|constructor|].
  exists text. split; [exact Ht|]. now apply Hrt.
Qed.

Lemma witness_roundtrip_witness :
  (exists text, Witness.serialize Base64.env sample_witnesses = Ok text)
  /\ (forall text, Witness.serialize Base64.env sample_witnesses = Ok text ->
       Witness.deserialize Base64.env (inl text) = Ok sample_witnesses)
  /\ Witness.serialize_stack [] = Ok [x00]
  /\ Witness.serialize Base64.env [] = BufferUtil.toBase64 Base64.env [x00]
  /\ (exists text, Witness.serialize Base64.env [] = Ok text
       /\ Witness.deserialize Base64.env (inl text) = Ok []).
Proof.
  destruct (witness_roundtrip Base64.env sample_witnesses reference_host)
    as (Htotal & Hrest).
  split; [|exact Hrest].
  apply Htotal; [vm_compute; reflexivity|].
  repeat constructor; vm_compute; reflexivity.
Defined.

(** C5. For every list of witnesses and every sequence of trailing bytes,
    deserializing the raw encoding of the list followed by the trailing
    bytes does not fail and returns exactly the list: the bytes after the
    declared witnesses are not read. *)
Theorem witness_trailing_bytes (env : host) (items : list bytes)
    (raw extra : bytes) :
  Witness.serialize_stack items = Ok raw ->
  Witness.deserialize env (inr (raw ++ extra)) = Ok items.
Proof.
  intros Hs. destruct (serialize_stack_bound items raw Hs) as [Hn Hall].
  destruct (witness_stack items Hn Hall) as (stack & Hs' & Hd).
  rewrite Hs in Hs'. injection Hs' as <-.
  unfold Witness.deserialize. cbn [mbind result_bind rbind]. apply Hd.
Qed.

Lemma witness_trailing_bytes_witness :
  Witness.serialize_stack [[x01; x02]; []] = Ok [x02; x02; x01; x02; x00]
  /\ Witness.deserialize Base64.env
       (inr ([x02; x02; x01; x02; x00] ++ [xff; x07; x07]))
     = Ok [[x01; x02]; []].
Proof.
  split; [reflexivity|].
  apply (witness_trailing_bytes Base64.env [[x01; x02]; []]). reflexivity.
Defined.

(** ** Reading bytes *)

Lemma byte_at_range (p : bytes) (k : Z) : 0 <= byte_at p k < 256.
Proof.
  unfold byte_at. destruct (p !! Z.to_nat k); [apply byte_val_range|lia].
Qed.

Lemma get_in_range (p : bytes) (k : Z) :
  0 <= k < blen p -> get p k = JInt (byte_at p k).
Proof.
  intros Hk. unfold get, byte_at. destruct (Z.ltb_spec k 0); [lia|].
  destruct (p !! Z.to_nat k) eqn:E; [reflexivity|].
  apply lookup_ge_None in E. unfold blen in Hk. lia.
Qed.

Lemma get_last (payload : bytes) (h : byte) :
  get (payload ++ [h]) (blen (payload ++ [h]) - 1) = JInt (byte_val h).
Proof.
  rewrite blen_app. change (blen [h]) with 1. pose proof (blen_nonneg payload).
  unfold get. destruct (Z.ltb_spec (blen payload + 1 - 1) 0); [lia|].
  rewrite list_lookup_middle by (unfold blen; lia). reflexivity.
Qed.

Lemma subarray_strip_last (payload : bytes) (h : byte) :
  subarray (payload ++ [h]) 0 (-1) = payload.
Proof.
  unfold subarray, rel_index, ToInteger. cbn [ToNumber Z.ltb Z.compare].
  rewrite blen_app. change (blen [h]) with 1. pose proof (blen_nonneg payload).
  rewrite Z.min_l, Z.max_l by lia. cbn [Z.to_nat drop].
  replace (Z.to_nat (blen payload + 1 + -1 - 0)) with (length payload)
    by (unfold blen; lia).
  apply take_app_length.
Qed.

Lemma ToInt32_small (z : Z) : 0 <= z < 2 ^ 31 -> ToInt32 z = z.
Proof.
  intros Hz. unfold ToInt32. cbn [ToNumber].
  change (2 ^ 31) with 2147483648 in *. change (2 ^ 32) with 4294967296.
  rewrite Z.mod_small by lia. destruct (Z.leb_spec 2147483648 z); lia.
Qed.

Lemma land_0x80 (x : Z) :
  0 <= x < 256 -> (Z.land x 0x80 =? 0) = negb (high_bit x).
Proof.
  intros Hx. rewrite <- (byte_val_of_Z x Hx).
  generalize (byte_of_Z x). intros b. destruct b; reflexivity.
Qed.

Lemma truthy_high_bit (x : Z) :
  0 <= x < 256 -> js_truthy (js_band x 0x80) = high_bit x.
Proof.
  intros Hx. unfold js_band. rewrite ToInt32_small by lia.
  change (ToInt32 0x80) with 0x80. cbn [js_truthy].
  rewrite land_0x80 by assumption. apply negb_involutive.
Qed.

(** ** decode2, over integers *)

Lemma js_sne_int (a b : Z) : js_sne a b = negb (a =? b).
Proof. reflexivity. Qed.
Lemma js_seq_int (a b : Z) : js_seq a b = (a =? b).
Proof. reflexivity. Qed.
Lemma js_add_int (a b : Z) : js_add a b = JInt (a + b).
Proof. reflexivity. Qed.
Lemma js_ge_int (a b : Z) : js_ge a b = (b <=? a).
Proof. unfold js_ge, js_cmp. cbn [ToNumber]. apply Z.geb_leb. Qed.
Lemma js_gt_int (a b : Z) : js_gt a b = (b <? a).
Proof. unfold js_gt, js_cmp. cbn [ToNumber]. apply Z.gtb_ltb. Qed.
Lemma js_le_int (a b : Z) : js_le a b = (a <=? b).
Proof. reflexivity. Qed.

Ltac js_int :=
  rewrite ?js_add_int, ?js_sne_int, ?js_seq_int, ?js_ge_int, ?js_gt_int,
    ?js_le_int, ?js_lt_int.

(** On a payload of 8 bytes or more every read of [decode2] that is reached
    is within the payload, and the checks are these, over integers. *)
Lemma decode2_checks (p : bytes) :
  8 <= blen p ->
  ScriptSig.decode2 p =
    let len := blen p in
    let lenR := byte_at p 3 in
    let lenS := byte_at p (5 + lenR) in
    if 72 <? len then Throw TooLong else
    if negb (byte_at p 0 =? 0x30) then Throw ExpectedSequence else
    if negb (byte_at p 1 =? len - 2) then Throw InvalidSequenceLength else
    if negb (byte_at p 2 =? 0x02) then Throw ExpectedInteger else
    if lenR =? 0 then Throw RLengthZero else
    if len <=? 5 + lenR then Throw RLengthTooLong else
    if negb (byte_at p (4 + lenR) =? 0x02) then Throw ExpectedInteger2 else
    if lenS =? 0 then Throw SLengthZero else
    if negb (6 + lenR + lenS =? len) then Throw SLengthInvalid else
    if high_bit (byte_at p 4) then Throw RNegative else
    if (1 <? lenR) && (byte_at p 4 =? 0x00) && negb (high_bit (byte_at p 5))
    then Throw RExcessivelyPadded else
    if high_bit (byte_at p (lenR + 6)) then Throw SNegative else
    if (1 <? lenS) && (byte_at p (lenR + 6) =? 0x00)
       && negb (high_bit (byte_at p (lenR + 7)))
    then Throw SExcessivelyPadded else
    Ok (der_R p, der_S p).
Proof.
  intros Hlen. unfold ScriptSig.decode2. cbv zeta.
  pose proof (byte_at_range p 3) as HR.
  pose proof (byte_at_range p (5 + byte_at p 3)) as HS.
  destruct (Z.ltb_spec (blen p) 8); [lia|].
  rewrite Z.gtb_ltb. destruct (72 <? blen p); [reflexivity|].
  rewrite (get_in_range p 0), (get_in_range p 1), (get_in_range p 2),
    (get_in_range p 3), (get_in_range p 4), (get_in_range p 5) by lia.
  js_int.
  destruct (negb (byte_at p 0 =? 48)); [reflexivity|].
  destruct (negb (byte_at p 1 =? blen p - 2)); [reflexivity|].
  destruct (negb (byte_at p 2 =? 2)); [reflexivity|].
  destruct (byte_at p 3 =? 0); [reflexivity|].
  destruct (Z.leb_spec (blen p) (5 + byte_at p 3)); [reflexivity|].
  rewrite (get_in_range p (4 + byte_at p 3)),
    (get_in_range p (5 + byte_at p 3)) by lia.
  js_int.
  destruct (negb (byte_at p (4 + byte_at p 3) =? 2)); [reflexivity|].
  destruct (byte_at p (5 + byte_at p 3) =? 0) eqn:ES0; [reflexivity|].
  apply Z.eqb_neq in ES0.
  destruct (Z.eqb_spec (6 + byte_at p 3 + byte_at p (5 + byte_at p 3)) (blen p))
    as [Hsum|]; [|reflexivity].
  cbn [negb].
  rewrite (get_in_range p (byte_at p 3 + 6)) by lia.
  rewrite !truthy_high_bit by apply byte_at_range.
  destruct (high_bit (byte_at p 4)); [reflexivity|].
  destruct ((1 <? byte_at p 3) && (byte_at p 4 =? 0)
            && negb (high_bit (byte_at p 5))); [reflexivity|].
  destruct (high_bit (byte_at p (byte_at p 3 + 6))); [reflexivity|].
  assert (subarray p 4 (4 + byte_at p 3) = der_R p) as ->.
  { rewrite subarray_range by lia. unfold der_R. do 2 f_equal; lia. }
  assert (subarray p (6 + byte_at p 3) JUndefined = der_S p) as ->.
  { rewrite subarray_from by lia. unfold der_S.
    symmetry. apply take_ge. rewrite length_drop. unfold blen in *. lia. }
  destruct (Z.ltb_spec 1 (byte_at p (5 + byte_at p 3))) as [Hs1|Hs1].
  - rewrite (get_in_range p (byte_at p 3 + 7)) by lia.
    rewrite truthy_high_bit by apply byte_at_range. reflexivity.
  - reflexivity.
Qed.

(** ** fromDER *)

Lemma length_normalize32 (x : bytes) : length (normalize32 x) = 32%nat.
Proof.
  unfold normalize32.
  set (stripped := match x with
                   | x0 :: rest => if byte_val x0 =? 0 then rest else x
                   | [] => x
                   end).
  destruct (Nat.leb_spec (length stripped) 32).
  - rewrite length_app, length_replicate. lia.
  - rewrite length_drop. lia.
Qed.

(** [fromDER] never throws, and computes the normal form of the
    specification. *)
Lemma fromDER_normalize32 (x : bytes) :
  ScriptSig.fromDER x = Ok (normalize32 x).
Proof.
  unfold ScriptSig.fromDER, normalize32. cbv zeta.
  assert ((if js_seq (get x 0) 0 then subarray x 1 JUndefined else x)
          = match x with
            | x0 :: rest => if byte_val x0 =? 0 then rest else x
            | [] => x
            end) as ->.
  { destruct x as [|x0 rest]; [reflexivity|].
    change (get (x0 :: rest) 0) with (JInt (byte_val x0)). js_int.
    destruct (byte_val x0 =? 0); [|reflexivity].
    rewrite subarray_from by (unfold blen; cbn [length]; lia). reflexivity. }
  set (data := match x with
               | x0 :: rest => if byte_val x0 =? 0 then rest else x
               | [] => x
               end).
  rewrite Z.gtb_ltb. unfold typed_set, in_view, splice, new_Uint8Array.
  change (blen (replicate (Z.to_nat 32) x00)) with 32.
  destruct (Z.ltb_spec 32 (blen data)) as [Hl|Hl];
    destruct (Nat.leb_spec (length data) 32) as [Hn|Hn];
    try (unfold blen in Hl; lia).
  - rewrite subarray_from by (unfold blen in *; lia).
    assert (blen (drop (Z.to_nat (blen data - 32)) data) = 32) as Hlen
      by (unfold blen in *; rewrite length_drop; lia).
    rewrite Hlen. change ((0 <=? 32 - 32) && (32 - 32 + 32 <=? 32)) with true.
    change (Z.to_nat (32 - 32)) with 0%nat. rewrite take_0. cbn [app].
    rewrite (drop_ge (replicate _ _))
      by (rewrite length_replicate; unfold blen in *; lia).
    rewrite app_nil_r. f_equal. f_equal. unfold blen. lia.
  - assert (0 <= blen data <= 32) as Hb by (unfold blen in *; lia).
    destruct (Z.leb_spec 0 (32 - blen data)); [|lia].
    destruct (Z.leb_spec (32 - blen data + blen data) 32); [|lia].
    cbn [andb]. rewrite take_replicate.
    rewrite drop_ge by (rewrite length_replicate; unfold blen in *; lia).
    rewrite app_nil_r. do 3 f_equal. unfold blen. lia.
Qed.

(** ** decodeScriptSignature *)

Lemma decode2_too_short (p : bytes) :
  blen p < 8 -> ScriptSig.decode2 p = Throw TooShort.
Proof.
  intros H. unfold ScriptSig.decode2.
  destruct (Z.ltb_spec (blen p) 8); [reflexivity|lia].
Qed.

Ltac split_ifs :=
  repeat match goal with
         | |- context [if ?c then _ else _] => destruct c eqn:?
         end.

Lemma decode2_not_hash_type (p : bytes) :
  ScriptSig.decode2 p <> Throw InvalidHashType.
Proof.
  destruct (Z.lt_ge_cases (blen p) 8) as [H|H].
  - now rewrite decode2_too_short.
  - rewrite decode2_checks by lia. cbv zeta. split_ifs; discriminate.
Qed.

(** The hash-type check comes first; past it, the result is that of
    [decode2] on the buffer without its last byte. *)
Lemma decodeScriptSignature_steps (buffer : bytes) :
  ScriptSig.decodeScriptSignature buffer =
    let hashType := get buffer (blen buffer - 1) in
    if hash_type_ok (ToInt32 hashType) then
      match ScriptSig.decode2 (subarray buffer 0 (-1)) with
      | Ok (r, s) =>
          Ok {| ScriptSig.signature := normalize32 r ++ normalize32 s;
                ScriptSig.hashType := hashType |}
      | Throw e => Throw e
      end
    else Throw InvalidHashType.
Proof.
  unfold ScriptSig.decodeScriptSignature, hash_type_ok. cbv zeta.
  unfold js_band. change (ToInt32 (js_bnot 128)) with (Z.lnot 128).
  js_int.
  destruct (Z.ltb_spec 0 (Z.land (ToInt32 (get buffer (blen buffer - 1)))
                            (Z.lnot 128))) as [H0|H0];
    destruct (Z.ltb_spec (Z.land (ToInt32 (get buffer (blen buffer - 1)))
                            (Z.lnot 128)) 4) as [H4|H4];
    destruct (Z.leb_spec (Z.land (ToInt32 (get buffer (blen buffer - 1)))
                            (Z.lnot 128)) 0) as [L0|L0];
    destruct (Z.leb_spec 4 (Z.land (ToInt32 (get buffer (blen buffer - 1)))
                            (Z.lnot 128))) as [L4|L4];
    try lia; try reflexivity.
  cbn [orb andb].
  destruct (ScriptSig.decode2 (subarray buffer 0 (-1))) as [[r s]|e];
    [|reflexivity].
  cbn [mbind result_bind rbind fst snd]. rewrite !fromDER_normalize32.
  reflexivity.
Qed.

(** C6. For every buffer, with [hashType] its last byte ([undefined] when
    the buffer is empty), the decoder fails with [InvalidHashType] exactly
    when [hashType & ~0x80] is not strictly between 0 and 4; when it
    succeeds the returned hash type is the last byte itself, with its 0x80
    bit if that was set. *)
Theorem hash_type_check (buffer : bytes) :
  let hashType := get buffer (blen buffer - 1) in
  let hashTypeMod := Z.land (ToInt32 hashType) (Z.lnot 0x80) in
  (ScriptSig.decodeScriptSignature buffer = Throw InvalidHashType
     <-> ~ (0 < hashTypeMod < 4))
  /\ (forall payload h, buffer = payload ++ [h] -> hashType = JInt (byte_val h))
  /\ (forall sig, ScriptSig.decodeScriptSignature buffer = Ok sig ->
        ScriptSig.hashType sig = hashType)
  /\ (forall payload h sig,
        buffer = payload ++ [h] ->
        ScriptSig.decodeScriptSignature buffer = Ok sig ->
        ScriptSig.hashType sig = JInt (byte_val h)
        /\ (Z.testbit (byte_val h) 7 = true ->
            Z.testbit (ToInteger (ScriptSig.hashType sig)) 7 = true)).
Proof.
  cbv zeta.
  assert (forall sig, ScriptSig.decodeScriptSignature buffer = Ok sig ->
            ScriptSig.hashType sig = get buffer (blen buffer - 1)) as Hok.
  { intros sig. rewrite decodeScriptSignature_steps. cbv zeta.
    destruct (hash_type_ok _); [|discriminate].
    destruct (ScriptSig.decode2 _) as [[r s]|e]; [|discriminate].
    intros H. injection H as <-. reflexivity. }
  split; [|split; [|split]].
  - rewrite decodeScriptSignature_steps. cbv zeta. unfold hash_type_ok.
    destruct (Z.ltb_spec 0 (Z.land (ToInt32 (get buffer (blen buffer - 1)))
                              (Z.lnot 128)));
      destruct (Z.ltb_spec (Z.land (ToInt32 (get buffer (blen buffer - 1)))
                              (Z.lnot 128)) 4); cbn [andb];
      try (split; [lia|reflexivity]).
    pose proof (decode2_not_hash_type (subarray buffer 0 (-1))) as Hne.
    destruct (ScriptSig.decode2 _) as [[r s]|e]; split;
      try discriminate; try lia.
    intros He. exfalso. apply Hne. injection He as ->. reflexivity.
  - intros payload h ->. apply get_last.
  - exact Hok.
  - intros payload h sig -> Hsig. apply Hok in Hsig.
    rewrite get_last in Hsig. rewrite Hsig. split; [reflexivity|].
    intros Hb. exact Hb.
Qed.

Lemma hash_type_check_witness :
  exists sig,
    ScriptSig.decodeScriptSignature (sample_payload ++ [x81]) = Ok sig
    /\ ScriptSig.hashType sig = JInt (byte_val x81)
    /\ Z.testbit (ToInteger (ScriptSig.hashType sig)) 7 = true.
Proof.
  eexists. split; [vm_compute; reflexivity|].
  destruct (hash_type_check (sample_payload ++ [x81])) as (_ & _ & _ & H).
  destruct (H sample_payload x81 _ eq_refl eq_refl) as [Hh Hbit].
  split; [exact Hh|]. apply Hbit. reflexivity.
Defined.

Lemma decodeScriptSignature_valid (payload : bytes) (h : byte) :
  hash_type_ok (byte_val h) = true ->
  ScriptSig.decodeScriptSignature (payload ++ [h]) =
    match ScriptSig.decode2 payload with
    | Ok (r, s) =>
        Ok {| ScriptSig.signature := normalize32 r ++ normalize32 s;
              ScriptSig.hashType := JInt (byte_val h) |}
    | Throw e => Throw e
    end.
Proof.
  intros Hh. rewrite decodeScriptSignature_steps. cbv zeta.
  rewrite get_last, subarray_strip_last.
  rewrite ToInt32_small, Hh; [reflexivity|].
  pose proof (byte_val_range h). change (2 ^ 31) with 2147483648. lia.
Qed.

Lemma checks_before_S_length_true (p : bytes) :
  checks_before_S_length p = true <->
    8 <= blen p <= 72
    /\ byte_at p 0 = 0x30 /\ byte_at p 1 = blen p - 2 /\ byte_at p 2 = 0x02
    /\ byte_at p 3 <> 0 /\ 4 + byte_at p 3 + 1 < blen p
    /\ byte_at p (4 + byte_at p 3) = 0x02
    /\ byte_at p (5 + byte_at p 3) <> 0.
Proof.
  unfold checks_before_S_length. cbv zeta.
  rewrite !andb_true_iff, !negb_true_iff, !Z.leb_le, !Z.eqb_eq, !Z.eqb_neq,
    Z.leb_gt. tauto.
Qed.

Lemma decode2_too_long (p : bytes) :
  72 < blen p -> ScriptSig.decode2 p = Throw TooLong.
Proof.
  intros H. rewrite decode2_checks by lia. cbv zeta.
  destruct (Z.ltb_spec 72 (blen p)); [reflexivity|lia].
Qed.

Ltac split_checks :=
  repeat match goal with
         | |- context [if ?c then _ else _] =>
             let E := fresh "E" in
             destruct c eqn:E;
             rewrite ?negb_true_iff, ?negb_false_iff, ?Z.ltb_lt, ?Z.ltb_ge,
               ?Z.leb_le, ?Z.leb_gt, ?Z.eqb_eq, ?Z.eqb_neq in E
         end.

Lemma decode2_S_length (p : bytes) :
  (ScriptSig.decode2 p = Throw SLengthInvalid
   <-> checks_before_S_length p = true
       /\ 6 + byte_at p 3 + byte_at p (5 + byte_at p 3) <> blen p)
  /\ (forall rs, ScriptSig.decode2 p = Ok rs ->
        6 + byte_at p 3 + byte_at p (5 + byte_at p 3) = blen p).
Proof.
  rewrite checks_before_S_length_true.
  destruct (Z.lt_ge_cases (blen p) 8) as [Hs|Hs].
  { rewrite decode2_too_short by assumption.
    split; [split; [discriminate|lia]|discriminate]. }
  rewrite decode2_checks by lia. cbv zeta.
  split_checks;
    (split; [split; [first [discriminate | intros _; repeat split; lia]
                    | first [reflexivity | lia] ]
            | intros rs; first [discriminate | intros _; lia] ]).
Qed.

(** C7, as the code has it.  For every buffer with a valid hash-type byte,
    the decoder fails with [TooShort] when the payload is shorter than 8
    bytes and with [TooLong] when it is longer than 72; it fails with
    [SLengthInvalid] exactly when the payload passes the checks that come
    first (length, sequence tag and length, R tag, [lenR] not zero and not
    too long, S tag, [lenS] not zero) and [6 + lenR + lenS] differs from the
    length of the payload; and it never succeeds unless the two are
    equal. *)
Theorem der_length_checks (payload : bytes) (h : byte) :
  hash_type_ok (byte_val h) = true ->
  let lenR := byte_at payload 3 in
  let lenS := byte_at payload (5 + lenR) in
  (blen payload < 8 ->
     ScriptSig.decodeScriptSignature (payload ++ [h]) = Throw TooShort)
  /\ (72 < blen payload ->
     ScriptSig.decodeScriptSignature (payload ++ [h]) = Throw TooLong)
  /\ (ScriptSig.decodeScriptSignature (payload ++ [h]) = Throw SLengthInvalid
      <-> checks_before_S_length payload = true
          /\ 6 + lenR + lenS <> blen payload)
  /\ (forall sig, ScriptSig.decodeScriptSignature (payload ++ [h]) = Ok sig ->
        6 + lenR + lenS = blen payload).
Proof.
  intros Hh. cbv zeta. rewrite decodeScriptSignature_valid by assumption.
  destruct (decode2_S_length payload) as [Hiff Hok].
  split; [|split; [|split]].
  - intros H. now rewrite decode2_too_short.
  - intros H. now rewrite decode2_too_long.
  - rewrite <- Hiff. destruct (ScriptSig.decode2 payload) as [[r s]|e].
    + split; discriminate.
    + split; intros H; injection H as ->; reflexivity.
  - intros sig. destruct (ScriptSig.decode2 payload) as [rs|e] eqn:E.
    + intros _. now apply (Hok rs).
    + discriminate.
Qed.

Lemma der_length_checks_witness :
  hash_type_ok (byte_val x01) = true
  /\ checks_before_S_length sample_bad_S_length = true
  /\ ScriptSig.decodeScriptSignature (sample_bad_S_length ++ [x01])
     = Throw SLengthInvalid.
Proof.
  split; [reflexivity|]. split; [reflexivity|].
  destruct (der_length_checks sample_bad_S_length x01 eq_refl)
    as (_ & _ & [_ H] & _).
  apply H. split; [reflexivity|]. vm_compute. discriminate.
Defined.

(** C7 as stated fails: this payload of 8 bytes, with the valid hash-type
    byte 0x01, has [lenR = 1] and [lenS = 0], so [6 + lenR + lenS = 7]
    differs from the length 8; the decoder fails with [SLengthZero], the
    check before, and not with [SLengthInvalid]. *)
Lemma der_length_checks_counterexample :
  let payload := [x30; x06; x02; x01; x01; x02; x00; x00] in
  let lenR := byte_at payload 3 in
  let lenS := byte_at payload (5 + lenR) in
  hash_type_ok (byte_val x01) = true
  /\ 6 + lenR + lenS <> blen payload
  /\ ScriptSig.decodeScriptSignature (payload ++ [x01]) = Throw SLengthZero
  /\ ScriptSig.decodeScriptSignature (payload ++ [x01]) <> Throw SLengthInvalid.
Proof.
  cbv zeta. split; [reflexivity|]. split; [vm_compute; discriminate|].
  split; [reflexivity|]. vm_compute. discriminate.
Qed.

Lemma structural_checks_true (p : bytes) :
  structural_checks p = true ->
  checks_before_S_length p = true
  /\ 6 + byte_at p 3 + byte_at p (5 + byte_at p 3) = blen p
  /\ high_bit (byte_at p 4) = false
  /\ (1 <? byte_at p 3) && (byte_at p 4 =? 0x00)
       && negb (high_bit (byte_at p 5)) = false
  /\ high_bit (byte_at p (byte_at p 3 + 6)) = false
  /\ (1 <? byte_at p (5 + byte_at p 3))
       && (byte_at p (byte_at p 3 + 6) =? 0x00)
       && negb (high_bit (byte_at p (byte_at p 3 + 7))) = false.
Proof.
  unfold structural_checks. cbv zeta.
  rewrite !andb_true_iff, !negb_true_iff, Z.eqb_eq. tauto.
Qed.

Lemma decode2_structural (p : bytes) :
  structural_checks p = true ->
  ScriptSig.decode2 p = Ok (der_R p, der_S p).
Proof.
  intros H. apply structural_checks_true in H.
  destruct H as (Hb & Hsum & HR & HRp & HS & HSp).
  apply checks_before_S_length_true in Hb.
  destruct Hb as (Hlen & H0 & H1 & H2 & H3 & H3l & H4 & H5).
  rewrite decode2_checks by lia. cbv zeta.
  rewrite HR, HRp, HS, HSp, H0, H1, H2, H4, Hsum, !Z.eqb_refl. cbn [negb].
  destruct (Z.ltb_spec 72 (blen p)); [lia|].
  destruct (Z.eqb_spec (byte_at p 3) 0); [lia|].
  destruct (Z.leb_spec (blen p) (5 + byte_at p 3)); [lia|].
  destruct (Z.eqb_spec (byte_at p (5 + byte_at p 3)) 0); [lia|].
  reflexivity.
Qed.

(** C8. For every buffer that passes all the checks (a valid hash-type byte
    after a payload that passes the structural checks), the decoder returns
    a signature of exactly 64 bytes: the first 32 are R and the last 32 are
    S, each normalized on its own by stripping one leading 0x00 byte if
    there is one, then left-padding with zeros to 32 bytes, or keeping the
    low-order 32 bytes of a longer value. *)
Theorem der_signature (payload : bytes) (h : byte) :
  hash_type_ok (byte_val h) = true ->
  structural_checks payload = true ->
  exists sig,
    ScriptSig.decodeScriptSignature (payload ++ [h]) = Ok sig
    /\ length (ScriptSig.signature sig) = 64%nat
    /\ take 32 (ScriptSig.signature sig) = normalize32 (der_R payload)
    /\ drop 32 (ScriptSig.signature sig) = normalize32 (der_S payload)
    /\ ScriptSig.hashType sig = JInt (byte_val h).
Proof.
  intros Hh Hp. rewrite decodeScriptSignature_valid by assumption.
  rewrite decode2_structural by assumption.
  eexists. split; [reflexivity|]. cbn [ScriptSig.signature ScriptSig.hashType].
  pose proof (length_normalize32 (der_R payload)) as HR.
  pose proof (length_normalize32 (der_S payload)) as HS.
  split; [rewrite length_app; lia|].
  split; [|split; [|reflexivity]].
  - rewrite <- HR at 1. apply take_app_length.
  - rewrite <- HR at 1. apply drop_app_length.
Qed.

Lemma der_signature_witness :
  exists sig,
    ScriptSig.decodeScriptSignature (sample_payload ++ [x81]) = Ok sig
    /\ length (ScriptSig.signature sig) = 64%nat
    /\ take 32 (ScriptSig.signature sig) = xf3 :: replicate 31 x11
    /\ drop 32 (ScriptSig.signature sig) = x05 :: replicate 31 x22
    /\ ScriptSig.hashType sig = JInt 0x81.
Proof.
  apply (der_signature sample_payload x81); reflexivity.
Defined.

(** * The store-level embedding: the caller's buffers *)

Section Frame.
Variable st0 : Store.store.

Lemma preserves_ret {A} (a : A) (Q : A -> Prop) :
  Q a -> preserves st0 (mret a) Q.
Proof. intros HQ st Hst. split; [exact Hst|]. cbn. now intros x [= <-]. Qed.

Lemma preserves_throw {A} (e : error) (Q : A -> Prop) :
  preserves st0 (Store.throw e) Q.
Proof. intros st Hst. split; [exact Hst|]. cbn. discriminate. Qed.

Lemma preserves_lift {A} (r : result A) :
  preserves st0 (Store.lift r) (fun _ => True).
Proof. intros st Hst. split; [exact Hst|]. trivial. Qed.

Lemma preserves_bind {A B} (m : Store.M A) (k : A -> Store.M B)
    (Q : A -> Prop) (R : B -> Prop) :
  preserves st0 m Q ->
  (forall x, Q x -> preserves st0 (k x) R) ->
  preserves st0 (m ≫= k) R.
Proof.
  intros Hm Hk st Hst. destruct (Hm st Hst) as [Hu HQ].
  unfold mbind, Store.M_bind. destruct (m st) as [[a|e] st']; cbn in *.
  - apply (Hk a); [now apply HQ|exact Hu].
  - split; [exact Hu|discriminate].
Qed.

Lemma preserves_weaken {A} (m : Store.M A) (Q R : A -> Prop) :
  preserves st0 m Q -> (forall x, Q x -> R x) -> preserves st0 m R.
Proof.
  intros Hm HQR st Hst. destruct (Hm st Hst) as [Hu HQ].
  split; [exact Hu|]. intros x Hx. apply HQR, HQ, Hx.
Qed.

Lemma preserves_contents (a : Store.Uint8Array) :
  preserves st0 (Store.contents a) (fun _ => True).
Proof. intros st Hst. split; [exact Hst|]. trivial. Qed.

Lemma preserves_alloc (n : Z) :
  preserves st0 (Store.alloc n) (fresh_for st0).
Proof.
  intros st Hst. unfold Store.alloc. cbn.
  assert (st0 !! fresh (dom st) = None) as Hnew.
  { destruct (st0 !! fresh (dom st)) as [c|] eqn:E; [|reflexivity].
    apply Hst in E. exfalso. apply (is_fresh (dom st)).
    apply elem_of_dom. now exists c. }
  split.
  - intros address c Hc. rewrite lookup_insert_ne; [now apply Hst|].
    intros <-. congruence.
  - intros x [= <-]. exact Hnew.
Qed.

Lemma preserves_poke (a : Store.Uint8Array) (offset : Z) (l : list byte) :
  fresh_for st0 a -> preserves st0 (Store.poke a offset l) (fun _ => True).
Proof.
  intros Ha st Hst. unfold Store.poke.
  destruct (st !! Store.buffer a) as [c|]; cbn; (split; [|trivial]).
  - intros address c' Hc. rewrite lookup_insert_ne; [now apply Hst|].
    intros <-. unfold fresh_for in Ha. congruence.
  - exact Hst.
Qed.

Lemma preserves_read (a : Store.Uint8Array) (i : jsval) :
  preserves st0 (Store.read a i) (fun _ => True).
Proof.
  unfold Store.read. eapply preserves_bind; [apply preserves_contents|].
  intros bs _. now apply preserves_ret.
Qed.

Lemma preserves_write (a : Store.Uint8Array) (i : Z) (v : jsval) :
  fresh_for st0 a -> preserves st0 (Store.write a i v) (fun _ => True).
Proof.
  intros Ha. unfold Store.write.
  destruct ((0 <=? i) && (i <? Store.byteLength a));
    [now apply preserves_poke|now apply preserves_ret].
Qed.

Lemma preserves_set_into (target source : Store.Uint8Array) (offset : Z) :
  fresh_for st0 target ->
  preserves st0 (Store.set_into target source offset) (fun _ => True).
Proof.
  intros Ha. unfold Store.set_into.
  eapply preserves_bind; [apply preserves_contents|]. intros bs _.
  destruct ((0 <=? offset) && (offset + blen bs <=? Store.byteLength target));
    [now apply preserves_poke|apply preserves_throw].
Qed.

Lemma preserves_getUintLE_at (n : Z) (a : Store.Uint8Array) (offset : Z) :
  preserves st0 (Store.getUintLE_at n a offset) (fun _ => True).
Proof.
  unfold Store.getUintLE_at. eapply preserves_bind; [apply preserves_contents|].
  intros bs _. apply preserves_lift.
Qed.

Lemma preserves_setUintLE_at (n : Z) (a : Store.Uint8Array) (offset : Z)
    (v : jsval) :
  fresh_for st0 a ->
  preserves st0 (Store.setUintLE_at n a offset v) (fun _ => True).
Proof.
  intros Ha. unfold Store.setUintLE_at.
  destruct ((0 <=? offset) && (offset + n <=? Store.byteLength a));
    [now apply preserves_poke|apply preserves_throw].
Qed.

End Frame.

Section FrameCodecs.
Variable st0 : Store.store.

(** A sequence step: run [m], then go on with what it returned. *)
Ltac step lem := eapply preserves_bind; [apply lem|cbv beta].
Ltac step_with lem := eapply preserves_bind; [apply lem; assumption|intros _ _].

Lemma preserves_encode_loop (n : nat) (j : Z) (buffer : Store.Uint8Array)
    (value : jsval) :
  fresh_for st0 buffer ->
  preserves st0 (Store.VarInt.encode_loop n j buffer value) (fun _ => True).
Proof.
  intros Hb. revert j value. induction n as [|n IH]; intros j value;
    cbn [Store.VarInt.encode_loop].
  - now apply preserves_ret.
  - step_with preserves_write. apply IH.
Qed.

(** [encode] writes only to the array that it allocates. *)
Lemma preserves_encode (i : jsval) :
  preserves st0 (Store.VarInt.encode i) (fresh_for st0).
Proof.
  unfold Store.VarInt.encode.
  destruct (js_lt i 0xFD); [|destruct (js_lt i 0x10000);
    [|destruct (js_lt i 0x100000000); [|destruct (js_lt i 0x1000000000000)]]].
  - step preserves_alloc. intros buffer Hb.
    step_with preserves_write. now apply preserves_ret.
  - step preserves_alloc. intros buffer Hb.
    step_with preserves_setUintLE_at. step_with preserves_setUintLE_at.
    now apply preserves_ret.
  - step preserves_alloc. intros buffer Hb.
    step_with preserves_setUintLE_at. step_with preserves_setUintLE_at.
    now apply preserves_ret.
  - step preserves_alloc. intros buffer Hb.
    step_with preserves_write. step_with preserves_encode_loop.
    step_with preserves_write. step_with preserves_write.
    now apply preserves_ret.
  - apply preserves_throw.
Qed.

Lemma preserves_readUIntLE_loop (n : nat) (buffer : Store.Uint8Array)
    (offset i : Z) (value multiplier : jsval) :
  preserves st0 (Store.VarInt.readUIntLE_loop n buffer offset i value multiplier)
    (fun _ => True).
Proof.
  revert i value multiplier. induction n as [|n IH]; intros i value multiplier;
    cbn [Store.VarInt.readUIntLE_loop].
  - now apply preserves_ret.
  - step preserves_read. intros x _. apply IH.
Qed.

(** [decode] only reads. *)
Lemma preserves_decode (b : Store.Uint8Array) :
  preserves st0 (Store.VarInt.decode b) (fun _ => True).
Proof.
  unfold Store.VarInt.decode.
  destruct (Store.byteLength b =? 0); [apply preserves_throw|].
  step preserves_read. intros i _.
  destruct (js_seq i 0xfd); [apply preserves_getUintLE_at|].
  destruct (js_seq i 0xfe); [apply preserves_getUintLE_at|].
  destruct (js_seq i 0xff); [apply preserves_readUIntLE_loop|].
  now apply preserves_ret.
Qed.

Lemma preserves_concat (a b : Store.Uint8Array) :
  preserves st0 (Store.BufferUtil.concat a b) (fresh_for st0).
Proof.
  unfold Store.BufferUtil.concat. cbv zeta.
  step preserves_alloc. intros res Hres.
  step_with preserves_set_into. step_with preserves_set_into.
  now apply preserves_ret.
Qed.

Lemma preserves_varstr_encode (s : Store.Uint8Array) :
  preserves st0 (Store.VarStr.encode s) (fresh_for st0).
Proof.
  unfold Store.VarStr.encode. step preserves_encode. intros header _.
  apply preserves_concat.
Qed.

Lemma preserves_varstr_decode (v : Store.Uint8Array) :
  preserves st0 (Store.VarStr.decode v) (fun _ => True).
Proof.
  unfold Store.VarStr.decode. step preserves_decode. intros len _.
  step preserves_encode. intros header _. cbv zeta.
  destruct (js_lt _ _); [apply preserves_throw|now apply preserves_ret].
Qed.

Lemma preserves_serialize_loop (witnesses : list Store.Uint8Array)
    (witnessStack : Store.Uint8Array) :
  preserves st0 (Store.Witness.serialize_loop witnesses witnessStack)
    (fun _ => True).
Proof.
  revert witnessStack. induction witnesses as [|w ws IH]; intros stack;
    cbn [Store.Witness.serialize_loop].
  - now apply preserves_ret.
  - step preserves_varstr_encode. intros item _.
    step preserves_concat. intros stack' _. apply IH.
Qed.

Lemma preserves_deserialize_loop (n : nat) (witnessToDecode : Store.Uint8Array)
    (witnessDecoded : list Store.Uint8Array) :
  preserves st0
    (Store.Witness.deserialize_loop n witnessToDecode witnessDecoded)
    (fun _ => True).
Proof.
  revert witnessToDecode witnessDecoded.
  induction n as [|n IH]; intros toDecode decoded;
    cbn [Store.Witness.deserialize_loop].
  - now apply preserves_ret.
  - step preserves_varstr_decode. intros witness _.
    step preserves_varstr_encode. intros item _. apply IH.
Qed.

Variable env : host.

Lemma preserves_base64ToBytes_loop (rest : jsstring) (i : Z)
    (out : Store.Uint8Array) :
  fresh_for st0 out ->
  preserves st0 (Store.BufferUtil.base64ToBytes_loop rest i out)
    (fun _ => True).
Proof.
  intros Hout. revert i. induction rest as [|c rest IH]; intros i;
    cbn [Store.BufferUtil.base64ToBytes_loop].
  - now apply preserves_ret.
  - step_with preserves_write. apply IH.
Qed.

Lemma preserves_fromBase64 (value : jsstring) :
  preserves st0 (Store.BufferUtil.fromBase64 env value) (fun _ => True).
Proof.
  unfold Store.BufferUtil.fromBase64, Store.BufferUtil.base64ToBytes.
  destruct (atob env) as [a|]; [|apply preserves_throw].
  step preserves_lift. intros binary _.
  step preserves_alloc. intros out Hout.
  step_with preserves_base64ToBytes_loop. now apply preserves_ret.
Qed.

Lemma preserves_bytesToBase64_loop (n : nat) (value : Store.Uint8Array)
    (chunkSize i : Z) (binary : jsstring) :
  preserves st0
    (Store.BufferUtil.bytesToBase64_loop n value chunkSize i binary)
    (fun _ => True).
Proof.
  revert i binary. induction n as [|n IH]; intros i binary;
    cbn [Store.BufferUtil.bytesToBase64_loop].
  - now apply preserves_ret.
  - destruct (i <? Store.byteLength value); [|now apply preserves_ret].
    cbv zeta. eapply preserves_bind.
    + unfold Store.BufferUtil.fromCharCode.
      eapply preserves_bind; [apply preserves_contents|].
      intros bs _. apply (preserves_ret st0 _ (fun _ => True)). exact I.
    + intros codes _. apply IH.
Qed.

Lemma preserves_toBase64 (value : Store.Uint8Array) :
  preserves st0 (Store.BufferUtil.toBase64 env value) (fun _ => True).
Proof.
  unfold Store.BufferUtil.toBase64, Store.BufferUtil.bytesToBase64.
  destruct (btoa env) as [b|]; [|apply preserves_throw]. cbv zeta.
  step preserves_bytesToBase64_loop. intros binary _. apply preserves_lift.
Qed.

Lemma preserves_serialize (witnesses : list Store.Uint8Array) :
  preserves st0 (Store.Witness.serialize env witnesses) (fun _ => True).
Proof.
  unfold Store.Witness.serialize. step preserves_encode. intros stack _.
  step preserves_serialize_loop. intros stack' _. apply preserves_toBase64.
Qed.

Lemma preserves_deserialize (encodedWitness : jsstring + Store.Uint8Array) :
  preserves st0 (Store.Witness.deserialize env encodedWitness) (fun _ => True).
Proof.
  unfold Store.Witness.deserialize.
  eapply preserves_bind with (Q := fun _ => True).
  - destruct encodedWitness as [text|raw];
      [apply preserves_fromBase64|now apply preserves_ret].
  - intros toDecode _. step preserves_decode. intros count _.
    step preserves_encode. intros header _. cbv zeta.
    apply preserves_deserialize_loop.
Qed.

End FrameCodecs.

Lemma unchanged_refl (st : Store.store) : unchanged st st.
Proof. intros address c H. exact H. Qed.

(** C9. For every operation of the VarInt and Witness codecs, every store
    and every argument, each buffer of the store (so each buffer the caller
    supplies) holds the same bytes after the call as before it, whether the
    operation returns or throws. *)
Theorem codecs_leave_buffers_unchanged (env : host) (st : Store.store) :
  (forall i, unchanged st (Store.VarInt.encode i st).2)
  /\ (forall b, unchanged st (Store.VarInt.decode b st).2)
  /\ (forall witnesses,
        unchanged st (Store.Witness.serialize env witnesses st).2)
  /\ (forall encodedWitness,
        unchanged st (Store.Witness.deserialize env encodedWitness st).2).
Proof.
  repeat split; intros x.
  - apply (preserves_encode st x st), unchanged_refl.
  - apply (preserves_decode st x st), unchanged_refl.
  - apply (preserves_serialize st env x st), unchanged_refl.
  - apply (preserves_deserialize st env x st), unchanged_refl.
Qed.

(** * The store-level embedding computes what the value-level one does *)

Lemma unchanged_trans (st1 st2 st3 : Store.store) :
  unchanged st1 st2 -> unchanged st2 st3 -> unchanged st1 st3.
Proof. intros H12 H23 address c H. apply H23, H12, H. Qed.

Lemma shows_unchanged (st st' : Store.store) (a : Store.Uint8Array)
    (bs : list byte) :
  unchanged st st' -> shows st a bs -> shows st' a bs.
Proof.
  intros Hu (c & Hc & Hlen & Hbs). exists c. split; [apply Hu, Hc|]. now split.
Qed.

Lemma shows_view_bytes (st : Store.store) (a : Store.Uint8Array)
    (bs : list byte) :
  shows st a bs -> Store.view_bytes st a = bs /\ Store.byteLength a = blen bs.
Proof.
  intros (c & Hc & Hlen & ->). unfold Store.view_bytes, Store.byteLength, blen.
  rewrite Hc. split; [reflexivity|].
  rewrite length_take, length_drop. lia.
Qed.

Lemma owns_shows (st : Store.store) (a : Store.Uint8Array) (bs : list byte) :
  owns st a bs -> shows st a bs.
Proof.
  intros (Hc & Ho & Hl). exists bs. split; [exact Hc|]. rewrite Ho, Hl.
  split; [simpl; lia|]. cbn [drop]. now rewrite take_ge.
Qed.

Lemma result_bind_assoc {A B C} (r : result A) (f : A -> result B)
    (g : B -> result C) :
  (r ≫= f) ≫= g = r ≫= (fun x => f x ≫= g).
Proof. destruct r; reflexivity. Qed.

Lemma sim_ret {A B} (st : Store.store) (a : A) (b : B)
    (R : Store.store -> A -> B -> Prop) :
  R st a b -> sim st (mret a) (Ok b) R.
Proof. intros HR. exists a, st. split; [reflexivity|]. split; [|exact HR].
  apply unchanged_refl. Qed.

Lemma sim_throw {A B} (st : Store.store) (e : error)
    (R : Store.store -> A -> B -> Prop) :
  sim st (Store.throw e) (Throw e) R.
Proof. exists st. split; [reflexivity|apply unchanged_refl]. Qed.

Lemma sim_lift {A} (st : Store.store) (r : result A) :
  sim st (Store.lift r) r (fun _ a b => a = b).
Proof.
  destruct r as [a|e]; cbn.
  - exists a, st. split; [reflexivity|]. split; [apply unchanged_refl|reflexivity].
  - exists st. split; [reflexivity|apply unchanged_refl].
Qed.

Lemma sim_bind {A A' B B'} (st : Store.store)
    (m : Store.M A) (k : A -> Store.M B)
    (r : result A') (k' : A' -> result B')
    (R : Store.store -> A -> A' -> Prop)
    (R' : Store.store -> B -> B' -> Prop) :
  sim st m r R ->
  (forall a a' st', unchanged st st' -> R st' a a' -> sim st' (k a) (k' a') R') ->
  sim st (m ≫= k) (r ≫= k') R'.
Proof.
  intros Hm Hk. destruct r as [a'|e]; cbn in Hm.
  - destruct Hm as (a & st' & Hrun & Hu & HR).
    specialize (Hk a a' st' Hu HR).
    assert ((m ≫= k) st = k a st') as Hb
      by (unfold mbind, Store.M_bind; now rewrite Hrun).
    change (Ok a' ≫= k') with (k' a'). unfold sim in *. rewrite Hb.
    destruct (k' a') as [b'|e].
    + destruct Hk as (b & st'' & Hrun' & Hu' & HR').
      exists b, st''. split; [exact Hrun'|]. split; [|exact HR'].
      eapply unchanged_trans; eassumption.
    + destruct Hk as (st'' & Hrun' & Hu'). exists st''.
      split; [exact Hrun'|]. eapply unchanged_trans; eassumption.
  - destruct Hm as (st' & Hrun & Hu). exists st'.
    split; [|exact Hu]. unfold mbind, Store.M_bind. now rewrite Hrun.
Qed.

(** ** Reads *)

Lemma sim_of_run {A} (st : Store.store) (m : Store.M A) (r : result A) :
  m st = (r, st) -> sim st m r (fun _ a b => a = b).
Proof.
  intros Hrun. destruct r as [a|e]; cbn.
  - exists a, st. split; [exact Hrun|]. split; [apply unchanged_refl|reflexivity].
  - exists st. split; [exact Hrun|apply unchanged_refl].
Qed.

Lemma read_run (st : Store.store) (a : Store.Uint8Array) (i : jsval) :
  Store.read a i st = (Ok (get (Store.view_bytes st a) i), st).
Proof. reflexivity. Qed.

Lemma getUintLE_at_run (st : Store.store) (n : Z) (a : Store.Uint8Array)
    (offset : Z) :
  Store.getUintLE_at n a offset st
  = (getUintLE n (Store.view_bytes st a) offset, st).
Proof. reflexivity. Qed.

Lemma readUIntLE_loop_run (st : Store.store) (n : nat)
    (buffer : Store.Uint8Array) (offset i : Z) (value multiplier : jsval) :
  Store.VarInt.readUIntLE_loop n buffer offset i value multiplier st
  = (Ok (VarInt.readUIntLE_loop n (Store.view_bytes st buffer) offset i
           value multiplier), st).
Proof.
  revert i value multiplier. induction n as [|n IH]; intros i value multiplier.
  - reflexivity.
  - cbn [Store.VarInt.readUIntLE_loop VarInt.readUIntLE_loop].
    unfold mbind, Store.M_bind. rewrite read_run. apply IH.
Qed.

(** [decode] leaves the store as it is, and returns what the value-level
    [decode] returns on the bytes that the view shows. *)
Lemma decode_run (st : Store.store) (b : Store.Uint8Array) (bs : list byte) :
  shows st b bs ->
  Store.VarInt.decode b st = (VarInt.decode bs, st).
Proof.
  intros Hb. apply shows_view_bytes in Hb as [Hv Hl].
  unfold Store.VarInt.decode, VarInt.decode. rewrite Hl.
  destruct (blen bs =? 0); [reflexivity|].
  unfold mbind, Store.M_bind. rewrite read_run, Hv.
  destruct (js_seq (get bs 0) 0xfd).
  { unfold Store.VarInt.readUInt16LE. now rewrite getUintLE_at_run, Hv. }
  destruct (js_seq (get bs 0) 0xfe).
  { unfold Store.VarInt.readUInt32LE. now rewrite getUintLE_at_run, Hv. }
  destruct (js_seq (get bs 0) 0xff); [|reflexivity].
  unfold Store.VarInt.readUIntLE. now rewrite readUIntLE_loop_run, Hv.
Qed.

(** ** Views of a view *)

Lemma rel_index_range (len : Z) (k : jsval) :
  0 <= len -> 0 <= rel_index len k <= len.
Proof.
  intros H. unfold rel_index. cbv zeta.
  destruct (Z.ltb_spec (ToInteger k) 0); lia.
Qed.

Lemma shows_slice_view (st : Store.store) (a : Store.Uint8Array)
    (bs : list byte) (begin end_ : jsval) :
  shows st a bs ->
  shows st (Store.slice_view a begin end_) (subarray bs begin end_).
Proof.
  intros Ha. destruct (shows_view_bytes _ _ _ Ha) as [_ Hl].
  destruct Ha as (c & Hc & Hlen & ->).
  unfold Store.slice_view, subarray. rewrite <- Hl. cbv zeta.
  pose proof (rel_index_range (Store.byteLength a) begin) as Hf.
  set (from := rel_index (Store.byteLength a) begin) in *.
  set (to := match end_ with
             | JUndefined => Store.byteLength a
             | _ => rel_index (Store.byteLength a) end_
             end).
  assert (0 <= to <= Store.byteLength a) as Ht.
  { unfold to. destruct end_; try apply rel_index_range;
      unfold Store.byteLength; lia. }
  unfold Store.byteLength in *.
  exists c. cbn [Store.buffer Store.byteOffset Store.length].
  split; [exact Hc|]. split; [lia|].
  rewrite <- drop_drop.
  rewrite (take_drop_commute (drop (Store.byteOffset a) c)).
  rewrite (take_drop_commute (take _ _)).
  rewrite take_take. do 2 f_equal. lia.
Qed.

(** ** Writes to an array that the computation owns *)

Lemma owns_insert (st : Store.store) (a : Store.Uint8Array)
    (bs bs' : list byte) :
  owns st a bs -> length bs' = length bs ->
  owns (<[Store.buffer a := bs']> st) a bs'.
Proof.
  intros (Hc & Ho & Hl) Hlen. split; [apply lookup_insert_eq|].
  split; [exact Ho|]. now rewrite Hlen.
Qed.

Lemma length_splice (target source : list byte) (offset : Z) :
  0 <= offset -> offset + blen source <= blen target ->
  length (splice target source offset) = length target.
Proof.
  intros H0 H1. unfold splice, blen in *.
  rewrite !length_app, length_take, length_drop. lia.
Qed.

Lemma alloc_run (st : Store.store) (n : Z) :
  exists a st', Store.alloc n st = (Ok a, st')
    /\ owns st' a (new_Uint8Array n).
Proof.
  eexists _, _. split; [reflexivity|]. split; [apply lookup_insert_eq|].
  split; [reflexivity|]. cbn. unfold new_Uint8Array.
  now rewrite length_replicate.
Qed.

Lemma poke_run (st : Store.store) (a : Store.Uint8Array) (bs l : list byte)
    (offset : Z) :
  owns st a bs ->
  Store.poke a offset l st
  = (Ok tt, <[Store.buffer a := splice bs l offset]> st).
Proof.
  intros (Hc & Ho & Hl). unfold Store.poke. rewrite Hc, Ho.
  do 3 f_equal.
Qed.

Lemma splice_one (bs : list byte) (i : Z) (x : byte) :
  0 <= i < blen bs -> splice bs [x] i = <[Z.to_nat i := x]> bs.
Proof.
  intros Hi. unfold splice, blen in *. cbn [List.length app].
  rewrite insert_take_drop by lia. do 3 f_equal. lia.
Qed.

Lemma write_run (st : Store.store) (a : Store.Uint8Array) (bs : list byte)
    (i : Z) (v : jsval) :
  owns st a bs ->
  Store.write a i v st = (Ok tt, <[Store.buffer a := put bs i v]> st)
  /\ owns (<[Store.buffer a := put bs i v]> st) a (put bs i v).
Proof.
  intros Ha. split.
  - unfold Store.write, put, Store.byteLength.
    destruct Ha as (Hc & Ho & Hl). rewrite Hl.
    destruct (Z.leb_spec 0 i) as [H0|H0]; destruct (Z.ltb_spec i 0); try lia;
      cbn [andb].
    + destruct (Z.ltb_spec i (Z.of_nat (length bs))).
      * rewrite (poke_run st a bs) by (now split).
        rewrite splice_one by (unfold blen; lia). reflexivity.
      * rewrite list_insert_ge by lia. rewrite (insert_id st) by assumption.
        reflexivity.
    + rewrite (insert_id st) by assumption. reflexivity.
  - apply (owns_insert st a bs); [exact Ha|]. unfold put.
    destruct (i <? 0); [reflexivity|apply length_insert].
Qed.

Lemma setUintLE_at_run (st : Store.store) (n : Z) (a : Store.Uint8Array)
    (bs : list byte) (offset : Z) (v : jsval) :
  owns st a bs -> 0 <= n ->
  match setUintLE n bs offset v with
  | Ok bs' =>
      Store.setUintLE_at n a offset v st = (Ok tt, <[Store.buffer a := bs']> st)
      /\ owns (<[Store.buffer a := bs']> st) a bs'
  | Throw e => Store.setUintLE_at n a offset v st = (Throw e, st)
  end.
Proof.
  intros Ha Hn. unfold setUintLE, Store.setUintLE_at, in_view, Store.byteLength.
  destruct (Ha) as (Hc & Ho & Hl). rewrite Hl. fold (blen bs).
  destruct (Z.leb_spec 0 offset); destruct (Z.leb_spec (offset + n) (blen bs));
    cbn [andb]; try reflexivity.
  split; [now apply poke_run|]. apply (owns_insert st a bs); [exact Ha|].
  apply length_splice; [assumption|].
  unfold blen in *. rewrite length_le_bytes. lia.
Qed.

Lemma encode_loop_run (n : nat) (st : Store.store) (a : Store.Uint8Array)
    (bs : list byte) (j : Z) (value : jsval) :
  owns st a bs ->
  Store.VarInt.encode_loop n j a value st
  = (Ok tt, <[Store.buffer a := VarInt.encode_loop n j bs value]> st)
  /\ owns (<[Store.buffer a := VarInt.encode_loop n j bs value]> st) a
       (VarInt.encode_loop n j bs value).
Proof.
  revert st bs j value. induction n as [|n IH]; intros st bs j value Ha;
    cbn [Store.VarInt.encode_loop VarInt.encode_loop].
  - destruct (Ha) as (Hc & _). rewrite (insert_id st) by assumption.
    split; [reflexivity|exact Ha].
  - destruct (write_run st a bs (1 + j) (js_band value 0xff) Ha) as [Hw Ho].
    unfold mbind, Store.M_bind. rewrite Hw.
    destruct (IH _ _ (j + 1) (js_floor_div value 256) Ho) as [Hrun Ho'].
    rewrite insert_insert_eq in Hrun, Ho'. split; assumption.
Qed.

(** ** VarInt.encode *)

Lemma bind_run {A B} (m : Store.M A) (k : A -> Store.M B)
    (st st' : Store.store) (a : A) :
  m st = (Ok a, st') -> (m ≫= k) st = k a st'.
Proof. intros H. unfold mbind, Store.M_bind. now rewrite H. Qed.

Lemma bind_run_throw {A B} (m : Store.M A) (k : A -> Store.M B)
    (st st' : Store.store) (e : error) :
  m st = (Throw e, st') -> (m ≫= k) st = (Throw e, st').
Proof. intros H. unfold mbind, Store.M_bind. now rewrite H. Qed.

Lemma setUintLE_at_step {A} (st : Store.store) (n : Z) (a : Store.Uint8Array)
    (bs : list byte) (offset : Z) (v : jsval)
    (k : Store.M A) (k' : list byte -> result (list byte))
    (P : A -> Store.store -> list byte -> Prop) :
  owns st a bs -> 0 <= n ->
  (forall st' bs', owns st' a bs' -> owned_result k st' (k' bs') P) ->
  owned_result (Store.setUintLE_at n a offset v ≫= fun _ => k) st
    (setUintLE n bs offset v ≫= k') P.
Proof.
  intros Ha Hn Hk. pose proof (setUintLE_at_run st n a bs offset v Ha Hn) as H.
  destruct (setUintLE n bs offset v) as [bs'|e].
  - destruct H as [Hrun Ho]. unfold owned_result.
    rewrite (bind_run _ _ _ _ _ Hrun).
    change (Ok bs' ≫= k') with (k' bs'). apply Hk, Ho.
  - exists st. now apply bind_run_throw.
Qed.

Lemma encode_result (st : Store.store) (i : jsval) :
  owned_result (Store.VarInt.encode i) st (VarInt.encode i)
    (fun a st' bs => owns st' a bs).
Proof.
  unfold VarInt.encode, Store.VarInt.encode.
  destruct (js_lt i 0xFD); [|destruct (js_lt i 0x10000);
    [|destruct (js_lt i 0x100000000); [|destruct (js_lt i 0x1000000000000)]]].
  - destruct (alloc_run st 1) as (a & st1 & Hrun & Ho).
    destruct (write_run st1 a _ 0 i Ho) as [Hw Ho'].
    eexists _, _. split; [|exact Ho'].
    rewrite (bind_run _ _ _ _ _ Hrun), (bind_run _ _ _ _ _ Hw). reflexivity.
  - destruct (alloc_run st 3) as (a & st1 & Hrun & Ho).
    unfold owned_result. rewrite (bind_run _ _ _ _ _ Hrun).
    apply (setUintLE_at_step st1 1 a _ 0 0xfd); [exact Ho|lia|].
    intros st2 b2 Ho2.
    apply (setUintLE_at_step st2 2 a _ 1 i); [exact Ho2|lia|].
    intros st3 b3 Ho3. eexists _, _. split; [reflexivity|exact Ho3].
  - destruct (alloc_run st 5) as (a & st1 & Hrun & Ho).
    unfold owned_result. rewrite (bind_run _ _ _ _ _ Hrun).
    apply (setUintLE_at_step st1 1 a _ 0 0xfe); [exact Ho|lia|].
    intros st2 b2 Ho2.
    apply (setUintLE_at_step st2 4 a _ 1 i); [exact Ho2|lia|].
    intros st3 b3 Ho3. eexists _, _. split; [reflexivity|exact Ho3].
  - destruct (alloc_run st 9) as (a & st1 & Hrun & Ho).
    destruct (write_run st1 a _ 0 0xff Ho) as [Hw1 Ho1].
    destruct (encode_loop_run 6 _ a _ 0 i Ho1) as [Hl Ho2].
    destruct (write_run _ a _ 7 0x00 Ho2) as [Hw3 Ho3].
    destruct (write_run _ a _ 8 0x00 Ho3) as [Hw4 Ho4].
    eexists _, _. split; [|exact Ho4].
    rewrite (bind_run _ _ _ _ _ Hrun), (bind_run _ _ _ _ _ Hw1),
      (bind_run _ _ _ _ _ Hl), (bind_run _ _ _ _ _ Hw3),
      (bind_run _ _ _ _ _ Hw4). reflexivity.
  - exists st. reflexivity.
Qed.

(** [encode] returns a new array that holds the bytes of the value-level
    encoding, or throws as the value-level [encode] does. *)
Lemma encode_sim (st : Store.store) (i : jsval) :
  sim st (Store.VarInt.encode i) (VarInt.encode i)
    (fun st' a bs => owns st' a bs).
Proof.
  pose proof (preserves_encode st i st (unchanged_refl st)) as [Hu _].
  pose proof (encode_result st i) as H. unfold sim, owned_result in *.
  destruct (VarInt.encode i) as [bs|e].
  - destruct H as (a & st' & Hrun & Ho). exists a, st'.
    rewrite Hrun in Hu. split; [exact Hrun|]. split; [exact Hu|exact Ho].
  - destruct H as (st' & Hrun). exists st'. rewrite Hrun in Hu.
    split; [exact Hrun|exact Hu].
Qed.

(** ** BufferUtil.concat and VarStr *)

Lemma unchanged_insert (st st' : Store.store) (k : nat) (x : list byte) :
  st !! k = None -> unchanged st st' -> unchanged st (<[k := x]> st').
Proof.
  intros Hk Hu address c Hc. rewrite lookup_insert_ne; [now apply Hu|].
  intros <-. congruence.
Qed.

Lemma alloc_fresh (st : Store.store) (n : Z) :
  exists a st', Store.alloc n st = (Ok a, st')
    /\ owns st' a (new_Uint8Array n) /\ fresh_for st a /\ unchanged st st'.
Proof.
  destruct (alloc_run st n) as (a & st' & Hrun & Ho). exists a, st'.
  destruct (preserves_alloc st n st (unchanged_refl st)) as [Hu Hf].
  rewrite Hrun in Hu, Hf. repeat split; try assumption; try apply Ho.
  now apply Hf.
Qed.

Lemma set_into_run (st : Store.store) (res src : Store.Uint8Array)
    (bs l : list byte) (offset : Z) :
  owns st res bs -> shows st src l ->
  0 <= offset -> offset + blen l <= blen bs ->
  Store.set_into res src offset st
  = (Ok tt, <[Store.buffer res := splice bs l offset]> st)
  /\ owns (<[Store.buffer res := splice bs l offset]> st) res
       (splice bs l offset).
Proof.
  intros Ho Hs H0 H1. apply shows_view_bytes in Hs as [Hv _].
  split.
  - unfold Store.set_into.
    assert (Store.contents src st = (Ok l, st)) as Hc
      by (unfold Store.contents; now rewrite Hv).
    rewrite (bind_run _ _ _ _ _ Hc). unfold Store.byteLength.
    destruct (Ho) as (_ & _ & ->). fold (blen bs).
    destruct (Z.leb_spec 0 offset); [|lia].
    destruct (Z.leb_spec (offset + blen l) (blen bs)); [|lia].
    cbn [andb]. now apply poke_run.
  - apply (owns_insert st res bs); [exact Ho|]. now apply length_splice.
Qed.

Lemma splice_concat (a b : list byte) :
  splice (splice (new_Uint8Array (blen a + blen b)) a 0) b (blen a) = a ++ b.
Proof.
  unfold splice, new_Uint8Array, blen.
  replace (Z.to_nat (Z.of_nat (length a) + Z.of_nat (length b)))
    with (length a + length b)%nat by lia.
  rewrite Nat2Z.id. cbn [Z.to_nat take app Nat.add].
  rewrite take_0. cbn [app]. rewrite drop_replicate.
  replace (length a + length b - length a)%nat with (length b) by lia.
  rewrite take_app_length. rewrite drop_app_ge by lia.
  rewrite drop_ge by (rewrite length_replicate; lia).
  now rewrite app_nil_r.
Qed.

(** [concat] returns a new array that holds the bytes of both parts. *)
Lemma concat_sim (st : Store.store) (a b : Store.Uint8Array)
    (bs_a bs_b : list byte) :
  shows st a bs_a -> shows st b bs_b ->
  sim st (Store.BufferUtil.concat a b) (Ok (BufferUtil.concat bs_a bs_b))
    (fun st' r bs => owns st' r bs).
Proof.
  intros Ha Hb.
  destruct (shows_view_bytes _ _ _ Ha) as [_ Hla].
  destruct (shows_view_bytes _ _ _ Hb) as [_ Hlb].
  pose proof (blen_nonneg bs_a). pose proof (blen_nonneg bs_b).
  unfold Store.BufferUtil.concat, BufferUtil.concat. cbv zeta.
  rewrite Hla, Hlb.
  destruct (alloc_fresh st (blen bs_a + blen bs_b))
    as (res & st1 & Hrun & Ho & Hf & Hu1).
  assert (blen (new_Uint8Array (blen bs_a + blen bs_b)) = blen bs_a + blen bs_b)
    as Hn by (unfold new_Uint8Array, blen; rewrite length_replicate; lia).
  destruct (set_into_run st1 res a _ bs_a 0 Ho (shows_unchanged _ _ _ _ Hu1 Ha))
    as [Hs1 Ho1]; [lia|lia|].
  assert (unchanged st (<[Store.buffer res :=
            splice (new_Uint8Array (blen bs_a + blen bs_b)) bs_a 0]> st1))
    as Hu2 by (now apply unchanged_insert).
  destruct (set_into_run _ res b _ bs_b (blen bs_a) Ho1
              (shows_unchanged _ _ _ _ Hu2 Hb)) as [Hs2 Ho2]; [lia| |].
  { unfold blen in *. rewrite length_splice; unfold blen; lia. }
  rewrite splice_concat in Hs2, Ho2.
  eexists res, _. split; [|split; [|exact Ho2]].
  - rewrite (bind_run _ _ _ _ _ Hrun), (bind_run _ _ _ _ _ Hs1),
      (bind_run _ _ _ _ _ Hs2). reflexivity.
  - now apply unchanged_insert.
Qed.

Lemma varstr_encode_sim (st : Store.store) (s : Store.Uint8Array)
    (bs : list byte) :
  shows st s bs ->
  sim st (Store.VarStr.encode s) (VarStr.encode bs)
    (fun st' a r => shows st' a r).
Proof.
  intros Hs. destruct (shows_view_bytes _ _ _ Hs) as [_ Hl].
  unfold Store.VarStr.encode, VarStr.encode. rewrite Hl.
  eapply sim_bind; [apply encode_sim|]. cbv beta.
  intros header hdr st' Hu Ho.
  pose proof (concat_sim st' header s hdr bs (owns_shows _ _ _ Ho)
                (shows_unchanged _ _ _ _ Hu Hs)) as (r & st'' & Hr & Hu' & Ho').
  exists r, st''. split; [exact Hr|]. split; [exact Hu'|].
  now apply owns_shows.
Qed.

Lemma varstr_decode_sim (st : Store.store) (v : Store.Uint8Array)
    (bs : list byte) :
  shows st v bs ->
  sim st (Store.VarStr.decode v) (VarStr.decode bs)
    (fun st' a r => shows st' a r).
Proof.
  intros Hv. destruct (shows_view_bytes _ _ _ Hv) as [_ Hl].
  unfold Store.VarStr.decode, VarStr.decode.
  eapply sim_bind; [apply sim_of_run, decode_run, Hv|]. cbv beta.
  intros len len' st1 Hu1 ->.
  eapply sim_bind; [apply encode_sim|]. cbv beta.
  intros header hdr st2 Hu2 Ho. cbv zeta.
  destruct (shows_view_bytes _ _ _ (owns_shows _ _ _ Ho)) as [_ Hlh].
  rewrite Hl, Hlh.
  destruct (js_lt (blen bs) (js_add (blen hdr) len')); [apply sim_throw|].
  apply sim_ret. apply shows_slice_view.
  eapply shows_unchanged; [exact Hu2|].
  eapply shows_unchanged; [exact Hu1|exact Hv].
Qed.

(** ** Witness *)

Lemma Forall2_shows_unchanged (st st' : Store.store)
    (views : list Store.Uint8Array) (items : list (list byte)) :
  unchanged st st' -> Forall2 (shows st) views items ->
  Forall2 (shows st') views items.
Proof.
  intros Hu H. eapply Forall2_impl; [exact H|].
  intros a bs. now apply shows_unchanged.
Qed.

Lemma serialize_loop_sim (witnesses : list Store.Uint8Array)
    (items : list (list byte)) :
  forall (st : Store.store) (witnessStack : Store.Uint8Array)
         (stack : list byte),
    Forall2 (shows st) witnesses items ->
    shows st witnessStack stack ->
    sim st (Store.Witness.serialize_loop witnesses witnessStack)
      (Witness.serialize_loop items stack) (fun st' a r => shows st' a r).
Proof.
  revert items. induction witnesses as [|w ws IH]; intros items st stack bs Hall Hs.
  - apply Forall2_nil_inv_l in Hall as ->. now apply sim_ret.
  - apply Forall2_cons_inv_l in Hall as (item & items' & Hw & Hws & ->).
    cbn [Store.Witness.serialize_loop Witness.serialize_loop].
    eapply sim_bind; [apply varstr_encode_sim, Hw|]. cbv beta.
    intros enc enc' st1 Hu1 He.
    assert (sim st1 (Store.BufferUtil.concat stack enc)
              (Ok (BufferUtil.concat bs enc'))
              (fun st' r b => shows st' r b)) as Hc.
    { destruct (concat_sim st1 stack enc bs enc'
                  (shows_unchanged _ _ _ _ Hu1 Hs) He)
        as (r & st2 & Hr & Hu2 & Ho).
      exists r, st2. split; [exact Hr|]. split; [exact Hu2|].
      now apply owns_shows. }
    change (Witness.serialize_loop items' (BufferUtil.concat bs enc'))
      with (Ok (BufferUtil.concat bs enc') ≫= Witness.serialize_loop items').
    eapply sim_bind; [exact Hc|]. cbv beta.
    intros stack' bs' st2 Hu2 Hs'. apply IH; [|exact Hs'].
    eapply Forall2_shows_unchanged; [exact Hu2|].
    eapply Forall2_shows_unchanged; [exact Hu1|exact Hws].
Qed.

Lemma deserialize_loop_sim (n : nat) :
  forall (st : Store.store) (witnessToDecode : Store.Uint8Array)
         (bs : list byte) (witnessDecoded : list Store.Uint8Array)
         (decoded : list (list byte)),
    shows st witnessToDecode bs ->
    Forall2 (shows st) witnessDecoded decoded ->
    sim st (Store.Witness.deserialize_loop n witnessToDecode witnessDecoded)
      (Witness.deserialize_loop n bs decoded)
      (fun st' views items => Forall2 (shows st') views items).
Proof.
  induction n as [|n IH]; intros st v bs views items Hv Hall;
    cbn [Store.Witness.deserialize_loop Witness.deserialize_loop].
  - now apply sim_ret.
  - eapply sim_bind; [apply varstr_decode_sim, Hv|]. cbv beta.
    intros w w' st1 Hu1 Hw. cbv zeta.
    eapply sim_bind; [apply varstr_encode_sim, Hw|]. cbv beta.
    intros enc enc' st2 Hu2 He.
    destruct (shows_view_bytes _ _ _ He) as [_ ->].
    unfold Store.BufferUtil.ensureBuffer, BufferUtil.ensureBuffer.
    pose proof (unchanged_trans _ _ _ Hu1 Hu2) as Hu.
    apply IH.
    + apply shows_slice_view. eapply shows_unchanged; [exact Hu|exact Hv].
    + apply Forall2_app.
      * eapply Forall2_shows_unchanged; [exact Hu|exact Hall].
      * constructor; [|constructor].
        eapply shows_unchanged; [exact Hu2|exact Hw].
Qed.

(** ** Base64 *)

Lemma bytesToBase64_loop_run (st : Store.store) (value : Store.Uint8Array)
    (bs : list byte) (chunkSize : Z) (n : nat) (i : Z) (binary : jsstring) :
  shows st value bs ->
  Store.BufferUtil.bytesToBase64_loop n value chunkSize i binary st
  = (Ok (BufferUtil.bytesToBase64_loop n bs chunkSize i binary), st).
Proof.
  intros Hv. destruct (shows_view_bytes _ _ _ Hv) as [_ Hl].
  revert i binary. induction n as [|n IH]; intros i binary;
    cbn [Store.BufferUtil.bytesToBase64_loop BufferUtil.bytesToBase64_loop].
  - reflexivity.
  - rewrite Hl. destruct (i <? blen bs); [|reflexivity]. cbv zeta.
    pose proof (shows_slice_view st value bs i (i + chunkSize) Hv) as Hc.
    apply shows_view_bytes in Hc as [Hc _].
    assert (Store.BufferUtil.fromCharCode
              (Store.slice_view value i (i + chunkSize)) st
            = (Ok (BufferUtil.fromCharCode (subarray bs i (i + chunkSize))), st))
      as Hf by (rewrite <- Hc; reflexivity).
    rewrite (bind_run _ _ _ _ _ Hf). apply IH.
Qed.

Lemma base64ToBytes_loop_run (rest : jsstring) :
  forall (st : Store.store) (out : Store.Uint8Array) (bs : list byte) (i : Z),
    owns st out bs ->
    exists st',
      Store.BufferUtil.base64ToBytes_loop rest i out st = (Ok tt, st')
      /\ owns st' out (BufferUtil.base64ToBytes_loop rest i bs).
Proof.
  induction rest as [|c rest IH]; intros st out bs i Ho;
    cbn [Store.BufferUtil.base64ToBytes_loop BufferUtil.base64ToBytes_loop].
  - exists st. split; [reflexivity|exact Ho].
  - destruct (write_run st out bs i c Ho) as [Hw Ho'].
    destruct (IH _ out _ (i + 1) Ho') as (st' & Hrun & Ho'').
    exists st'. split; [|exact Ho''].
    rewrite (bind_run _ _ _ _ _ Hw). exact Hrun.
Qed.

Section SimHost.
Variable env : host.

Lemma toBase64_sim (st : Store.store) (value : Store.Uint8Array)
    (bs : list byte) :
  shows st value bs ->
  sim st (Store.BufferUtil.toBase64 env value) (BufferUtil.toBase64 env bs)
    (fun _ a b => a = b).
Proof.
  intros Hv. apply sim_of_run.
  unfold Store.BufferUtil.toBase64, Store.BufferUtil.bytesToBase64,
    BufferUtil.toBase64, BufferUtil.bytesToBase64.
  destruct (btoa env) as [b|]; [|reflexivity]. cbv zeta.
  destruct (Hv) as (c & _ & Hlen & Hbs).
  assert (Store.length value = length bs) as ->
    by (rewrite Hbs, length_take, length_drop; lia).
  unfold mbind, Store.M_bind.
  rewrite (bytesToBase64_loop_run st value bs) by assumption. reflexivity.
Qed.

Lemma fromBase64_sim (st : Store.store) (text : jsstring) :
  sim st (Store.BufferUtil.fromBase64 env text) (BufferUtil.fromBase64 env text)
    (fun st' a bs => shows st' a bs).
Proof.
  pose proof (preserves_fromBase64 st env text st (unchanged_refl st))
    as [Hu _]. revert Hu.
  unfold Store.BufferUtil.fromBase64, Store.BufferUtil.base64ToBytes,
    BufferUtil.fromBase64, BufferUtil.base64ToBytes.
  destruct (atob env) as [a|]; [|intros _; apply sim_throw].
  destruct (a text) as [binary|e].
  - intros Hu. change (Store.lift (Ok binary)) with (@mret Store.M _ _ binary) in *.
    destruct (alloc_run st (Z.of_nat (length binary))) as (out & st1 & Hrun & Ho).
    destruct (base64ToBytes_loop_run binary st1 out _ 0 Ho) as (st2 & Hl & Ho2).
    assert ((mret binary ≫= fun binary =>
               Store.alloc (Z.of_nat (length binary)) ≫= fun out =>
               Store.BufferUtil.base64ToBytes_loop binary 0 out ≫= fun _ =>
               mret out) st = (Ok out, st2)) as Hall.
    { unfold mbind at 1, Store.M_bind at 1. cbn [mret Store.M_ret].
      rewrite (bind_run _ _ _ _ _ Hrun), (bind_run _ _ _ _ _ Hl). reflexivity. }
    rewrite Hall in Hu. exists out, st2.
    split; [exact Hall|]. split; [exact Hu|]. now apply owns_shows.
  - intros Hu. exists st. split; [reflexivity|apply unchanged_refl].
Qed.

(** The store-level embedding agrees with the value-level one: each
    operation returns what the value-level operation returns on the bytes
    that its arguments show (an array showing the same bytes, or the same
    value), or throws the same error, and leaves the buffers of the store
    unchanged. *)
Theorem store_embedding_agrees (st : Store.store) :
  (forall i,
     sim st (Store.VarInt.encode i) (VarInt.encode i)
       (fun st' a bs => shows st' a bs))
  /\ (forall b bs, shows st b bs ->
        sim st (Store.VarInt.decode b) (VarInt.decode bs) (fun _ x y => x = y))
  /\ (forall witnesses items, Forall2 (shows st) witnesses items ->
        sim st (Store.Witness.serialize env witnesses)
          (Witness.serialize env items) (fun _ x y => x = y))
  /\ (forall text,
        sim st (Store.Witness.deserialize env (inl text))
          (Witness.deserialize env (inl text))
          (fun st' views items => Forall2 (shows st') views items))
  /\ (forall raw bs, shows st raw bs ->
        sim st (Store.Witness.deserialize env (inr raw))
          (Witness.deserialize env (inr bs))
          (fun st' views items => Forall2 (shows st') views items)).
Proof.
  assert (forall st raw bs, shows st raw bs ->
            sim st
              (witnessCount ← Store.VarInt.decode raw;
               header ← Store.VarInt.encode witnessCount;
               Store.Witness.deserialize_loop (iterations witnessCount)
                 (Store.BufferUtil.ensureBuffer
                    (Store.slice_view raw (Store.byteLength header) JUndefined))
                 [])
              (Witness.deserialize_bytes bs)
              (fun st' views items => Forall2 (shows st') views items)) as Hd.
  { intros st1 raw bs Hraw. unfold Witness.deserialize_bytes.
    eapply sim_bind; [apply sim_of_run, decode_run, Hraw|]. cbv beta.
    intros count count' st2 Hu2 ->.
    eapply sim_bind; [apply encode_sim|]. cbv beta.
    intros header hdr st3 Hu3 Ho. cbv zeta.
    destruct (shows_view_bytes _ _ _ (owns_shows _ _ _ Ho)) as [_ ->].
    apply deserialize_loop_sim; [|constructor].
    apply shows_slice_view. eapply shows_unchanged; [exact Hu3|].
    eapply shows_unchanged; [exact Hu2|exact Hraw]. }
  split; [|split; [|split; [|split]]].
  - intros i.
    pose proof (encode_sim st i) as H. unfold sim in *.
    destruct (VarInt.encode i) as [bs|e]; [|exact H].
    destruct H as (a & st' & Hrun & Hu & Ho). exists a, st'.
    split; [exact Hrun|]. split; [exact Hu|]. now apply owns_shows.
  - intros b bs Hb. apply sim_of_run, decode_run, Hb.
  - intros witnesses items Hall.
    unfold Store.Witness.serialize, Witness.serialize, Witness.serialize_stack.
    rewrite <- (Forall2_length _ _ _ Hall), result_bind_assoc.
    eapply sim_bind; [apply encode_sim|]. cbv beta.
    intros stack bs st1 Hu1 Ho.
    eapply sim_bind.
    + apply serialize_loop_sim; [|apply owns_shows, Ho].
      eapply Forall2_shows_unchanged; [exact Hu1|exact Hall].
    + cbv beta. intros stack' bs' st2 Hu2 Hs. now apply toBase64_sim.
  - intros text. unfold Store.Witness.deserialize, Witness.deserialize.
    eapply sim_bind; [apply fromBase64_sim|]. cbv beta.
    intros raw bs st1 Hu1 Hraw. now apply Hd.
  - intros raw bs Hraw. unfold Store.Witness.deserialize, Witness.deserialize.
    eapply sim_bind; [apply (sim_ret st raw bs (fun st' a b => shows st' a b)),
      Hraw|]. cbv beta.
    intros raw' bs' st1 Hu1 Hraw'. now apply Hd.
Qed.

End SimHost.

(** * Further properties of the code *)

(** ** VarInt.readUIntLE *)

Lemma readUIntLE_loop_NaN (n : nat) (b : bytes) (offset i : Z)
    (multiplier : jsval) :
  VarInt.readUIntLE_loop n b offset i JNaN multiplier = JNaN.
Proof.
  revert i multiplier. induction n as [|n IH]; intros i multiplier;
    [reflexivity|].
  cbn [VarInt.readUIntLE_loop]. apply IH.
Qed.

Lemma get_drop (b : bytes) (k : Z) :
  0 <= k < blen b ->
  exists x rest, drop (Z.to_nat k) b = x :: rest /\ get b k = JInt (byte_val x).
Proof.
  intros Hk. unfold get. destruct (Z.ltb_spec k 0); [lia|].
  destruct (b !! Z.to_nat k) as [x|] eqn:E.
  - exists x, (drop (S (Z.to_nat k)) b). split; [|reflexivity].
    now apply drop_S.
  - apply lookup_ge_None in E. unfold blen in Hk. lia.
Qed.

Lemma get_out_of_range (b : bytes) (k : Z) :
  blen b <= k -> get b k = JUndefined.
Proof.
  intros Hk. unfold get. destruct (k <? 0); [reflexivity|].
  rewrite (proj2 (lookup_ge_None b (Z.to_nat k))); [reflexivity|].
  unfold blen in Hk. lia.
Qed.

Lemma readUIntLE_loop_value (n : nat) (b : bytes) (offset i v m : Z) :
  0 <= offset + i -> offset + i + Z.of_nat n <= blen b ->
  VarInt.readUIntLE_loop n b offset i v m
  = JInt (v + m * le_value (take n (drop (Z.to_nat (offset + i)) b))).
Proof.
  revert i v m. induction n as [|n IH]; intros i v m Hi Hn.
  - cbn [VarInt.readUIntLE_loop take le_value]. f_equal. rewrite take_0.
    cbn. lia.
  - cbn [VarInt.readUIntLE_loop].
    destruct (get_drop b (offset + i)) as (x & rest & Hd & Hg); [lia|].
    rewrite Hg. change (js_mul (byte_val x) m) with (JInt (byte_val x * m)).
    change (js_add v (byte_val x * m)) with (JInt (v + byte_val x * m)).
    change (js_mul m 256) with (JInt (m * 256)).
    rewrite IH by lia. f_equal. rewrite Hd. cbn [take le_value].
    replace (Z.to_nat (offset + (i + 1))) with (S (Z.to_nat (offset + i)))
      by lia.
    assert (drop (S (Z.to_nat (offset + i))) b = rest) as ->.
    { change (S (Z.to_nat (offset + i))) with (1 + Z.to_nat (offset + i))%nat.
      rewrite Nat.add_comm, <- drop_drop, Hd. reflexivity. }
    cbn [firstn]. lia.
Qed.

Lemma readUIntLE_loop_short (n : nat) (b : bytes) (offset i v m : Z) :
  (0 < n)%nat -> 0 <= offset + i -> blen b < offset + i + Z.of_nat n ->
  VarInt.readUIntLE_loop n b offset i v m = JNaN.
Proof.
  revert i v m. induction n as [|n IH]; intros i v m Hpos Hi Hn; [lia|].
  cbn [VarInt.readUIntLE_loop].
  destruct (Z.lt_ge_cases (offset + i) (blen b)) as [Hin|Hout].
  - destruct (get_drop b (offset + i)) as (x & rest & _ & Hg); [lia|].
    rewrite Hg.
    change (js_add v (js_mul (byte_val x) m))
      with (JInt (v + byte_val x * m)).
    change (js_mul m 256) with (JInt (m * 256)). apply IH; lia.
  - rewrite get_out_of_range by lia. apply readUIntLE_loop_NaN.
Qed.



(** ** VarInt.decode: what it returns and what it reads *)

Lemma le_value_take_bound (l : bytes) (n : nat) :
  0 <= le_value (take n l) < 256 ^ Z.of_nat n.
Proof.
  pose proof (le_value_range (take n l)) as H. rewrite length_take in H.
  split; [lia|]. eapply Z.lt_le_trans; [apply H|].
  apply Z.pow_le_mono_r; lia.
Qed.

Lemma decode_result (b : bytes) (v : jsval) :
  VarInt.decode b = Ok v ->
  v = JNaN \/ exists z, v = JInt z /\ 0 <= z < 0x1000000000000.
Proof.
  destruct b as [|x rest]; [discriminate|]. rewrite decode_cons.
  pose proof (byte_val_range x) as Hx.
  destruct (byte_val x =? 0xfd).
  { unfold VarInt.readUInt16LE, getUintLE. destruct (in_view _ _ _);
      [|discriminate].
    intros [= <-]. right. eexists. split; [reflexivity|].
    match goal with
    | |- context [le_value (take ?n ?l)] =>
        pose proof (le_value_take_bound l n) as H
    end.
    change (256 ^ Z.of_nat (Z.to_nat 2)) with 65536 in H. lia. }
  destruct (byte_val x =? 0xfe).
  { unfold VarInt.readUInt32LE, getUintLE. destruct (in_view _ _ _);
      [|discriminate].
    intros [= <-]. right. eexists. split; [reflexivity|].
    match goal with
    | |- context [le_value (take ?n ?l)] =>
        pose proof (le_value_take_bound l n) as H
    end.
    change (256 ^ Z.of_nat (Z.to_nat 4)) with 4294967296 in H. lia. }
  destruct (byte_val x =? 0xff).
  { intros [= <-]. unfold VarInt.readUIntLE.
    destruct (Z.le_gt_cases (1 + 6) (blen (x :: rest))).
    - right. rewrite readUIntLE_loop_value by (simpl; lia).
      eexists. split; [reflexivity|].
      match goal with
      | |- context [le_value (take ?n ?l)] =>
          pose proof (le_value_take_bound l n) as H'
      end.
      change (256 ^ Z.of_nat (Z.to_nat 6)) with 281474976710656 in H'.
      lia.
    - left. apply readUIntLE_loop_short; simpl; lia. }
  intros [= <-]. right. exists (byte_val x). split; [reflexivity|lia].
Qed.

(** X2. Whatever the buffer, [VarInt.decode] returns NaN or an integer from
    0 to 2^48 - 1: never a negative number, never [undefined], and never a
    number that [VarInt.encode] refuses. *)
Theorem varint_decode_range (b : bytes) (v : jsval) :
  VarInt.decode b = Ok v ->
  (v = JNaN \/ exists z, v = JInt z /\ 0 <= z < 0x1000000000000)
  /\ (forall z, v = JInt z -> exists bs, VarInt.encode z = Ok bs).
Proof.
  intros H. pose proof (decode_result b v H) as Hr. split; [exact Hr|].
  intros z ->. destruct Hr as [|(z' & [= <-] & Hz)]; [discriminate|].
  destruct (varint_header z Hz) as (hdr & He & _). now exists hdr.
Qed.

Lemma varint_decode_range_witness :
  (JInt 0x0201 = JNaN
   \/ exists z, JInt 0x0201 = JInt z /\ 0 <= z < 0x1000000000000)
  /\ (forall z, JInt 0x0201 = JInt z -> exists bs, VarInt.encode z = Ok bs).
Proof. apply (varint_decode_range [xfd; x01; x02]). reflexivity. Defined.

Lemma tag_byte (x y : byte) : (byte_val x =? byte_val y) = true -> x = y.
Proof. intros H. apply byte_val_inj, Z.eqb_eq, H. Qed.

(** X3. [VarInt.decode] reads the first 7 bytes of the buffer at most: what
    follows them never changes the result, so the two padding bytes of the
    9-byte form are not looked at, and may be anything or absent. *)
Theorem varint_decode_reads_7_bytes (b : bytes) :
  VarInt.decode b = VarInt.decode (take 7 b).
Proof.
  destruct b as [|x0 [|x1 [|x2 [|x3 [|x4 [|x5 [|x6 rest]]]]]]];
    try reflexivity.
  change (take 7 (x0 :: x1 :: x2 :: x3 :: x4 :: x5 :: x6 :: rest))
    with (x0 :: x1 :: x2 :: x3 :: x4 :: x5 :: x6 :: []).
  rewrite !decode_cons.
  destruct (byte_val x0 =? 0xfd) eqn:E1.
  { apply (tag_byte x0 xfd) in E1 as ->.
    pose proof (decode_tier2 x1 x2 (x3 :: x4 :: x5 :: x6 :: rest)) as H1.
    pose proof (decode_tier2 x1 x2 [x3; x4; x5; x6]) as H2.
    rewrite decode_cons in H1, H2. cbn in H1, H2. now rewrite H1, H2. }
  destruct (byte_val x0 =? 0xfe) eqn:E2.
  { apply (tag_byte x0 xfe) in E2 as ->.
    pose proof (decode_tier3 x1 x2 x3 x4 (x5 :: x6 :: rest)) as H1.
    pose proof (decode_tier3 x1 x2 x3 x4 [x5; x6]) as H2.
    rewrite decode_cons in H1, H2. cbn in H1, H2. now rewrite H1, H2. }
  destruct (byte_val x0 =? 0xff) eqn:E3; [|reflexivity].
  apply (tag_byte x0 xff) in E3 as ->.
  pose proof (decode_tier4 x1 x2 x3 x4 x5 x6 rest) as H1.
  pose proof (decode_tier4 x1 x2 x3 x4 x5 x6 []) as H2.
  rewrite decode_cons in H1, H2. cbn in H1, H2. now rewrite H1, H2.
Qed.

(** ** VarInt.encode: one parse only *)

(** X4. The encodings are prefix-free: if the encoding of [i] followed by
    any bytes is the encoding of [j] followed by any bytes, then [i = j]
    and what follows is the same.  A stream of VarInts has one parse. *)
Theorem varint_encode_prefix_free (i j : Z) (hi hj r r' : bytes) :
  0 <= i < 0x1000000000000 -> 0 <= j < 0x1000000000000 ->
  VarInt.encode i = Ok hi -> VarInt.encode j = Ok hj ->
  hi ++ r = hj ++ r' ->
  i = j /\ hi = hj /\ r = r'.
Proof.
  intros Hi Hj Hei Hej Heq.
  destruct (varint_header i Hi) as (hi' & Hei' & _ & Hdi).
  destruct (varint_header j Hj) as (hj' & Hej' & _ & Hdj).
  rewrite Hei in Hei'. injection Hei' as <-.
  rewrite Hej in Hej'. injection Hej' as <-.
  specialize (Hdi r). specialize (Hdj r'). rewrite Heq, Hdj in Hdi.
  injection Hdi as ->. rewrite Hei in Hej. injection Hej as ->.
  split; [reflexivity|]. split; [reflexivity|].
  now apply app_inv_head in Heq.
Qed.

Lemma varint_encode_prefix_free_witness :
  300 = 300 /\ [xfd; x2c; x01] = [xfd; x2c; x01] /\ [x07] = [x07].
Proof.
  apply (varint_encode_prefix_free 300 300 [xfd; x2c; x01] [xfd; x2c; x01]
           [x07] [x07]); try lia; reflexivity.
Defined.

(** X5. [VarInt.decode] accepts a 3-byte form whatever its payload: it
    returns [lo + 256 * hi] also when that is below 0xFD.  Encoding the
    result gives the 3 bytes back exactly when it is 0xFD or more; below,
    the encoding is one byte, so [encode(decode(b))] is shorter than [b]. *)
Theorem varint_decode_non_minimal (lo hi : byte) (rest : bytes) :
  let v := byte_val lo + 256 * byte_val hi in
  VarInt.decode (xfd :: lo :: hi :: rest) = Ok (JInt v)
  /\ (VarInt.encode v = Ok [xfd; lo; hi] <-> 0xFD <= v)
  /\ (v < 0xFD -> VarInt.encode v = Ok [lo]).
Proof.
  cbv zeta. pose proof (byte_val_range lo) as Hlo.
  pose proof (byte_val_range hi) as Hhi.
  split; [rewrite decode_tier2; cbn [le_value]; do 2 f_equal; lia|].
  assert (forall v, v = byte_val lo + 256 * byte_val hi -> v < 0xFD ->
            VarInt.encode v = Ok [lo]) as Hsmall.
  { intros v -> Hv. rewrite encode_tier1 by lia. do 2 f_equal.
    assert (byte_val hi = 0) as Hz by lia. rewrite Hz, Z.add_0_r.
    apply ToUint8_byte_val. }
  split; [|now apply Hsmall].
  split.
  - intros He. destruct (Z.lt_ge_cases (byte_val lo + 256 * byte_val hi) 0xFD)
      as [Hlt|]; [|lia].
    rewrite (Hsmall _ eq_refl Hlt) in He. discriminate.
  - intros Hge. rewrite encode_tier2 by lia. cbn [le_bytes].
    assert ((byte_val lo + 256 * byte_val hi) mod 256 = byte_val lo) as ->
      by (Z.div_mod_to_equations; lia).
    assert (((byte_val lo + 256 * byte_val hi) / 256) mod 256 = byte_val hi)
      as -> by (Z.div_mod_to_equations; lia).
    now rewrite !byte_of_Z_val.
Qed.

Lemma varint_decode_non_minimal_witness :
  VarInt.decode [xfd; x05; x00; x09] = Ok (JInt 5)
  /\ (VarInt.encode 5 = Ok [xfd; x05; x00] <-> 0xFD <= 5)
  /\ VarInt.encode 5 = Ok [x05].
Proof.
  destruct (varint_decode_non_minimal x05 x00 [x09]) as (H1 & H2 & H3).
  split; [exact H1|]. split; [exact H2|]. apply H3. reflexivity.
Defined.

(** ** VarInt.encode, store level *)

(** X6. [VarInt.encode] returns a newly allocated array: its buffer did not
    exist before the call, so no array of the caller aliases it; the array
    is the whole of that buffer, and holds the bytes of the encoding. *)
Theorem varint_encode_fresh_array (st st' : Store.store) (i : jsval)
    (a : Store.Uint8Array) :
  Store.VarInt.encode i st = (Ok a, st') ->
  st !! Store.buffer a = None
  /\ Store.byteOffset a = 0%nat
  /\ exists bs, VarInt.encode i = Ok bs
       /\ st' !! Store.buffer a = Some bs
       /\ Store.length a = length bs.
Proof.
  intros Hrun.
  destruct (preserves_encode st i st (unchanged_refl st)) as [_ Hf].
  rewrite Hrun in Hf. split; [now apply Hf|].
  pose proof (encode_result st i) as H. unfold owned_result in H.
  destruct (VarInt.encode i) as [bs|e].
  - destruct H as (a' & st'' & Hrun' & Ho). rewrite Hrun in Hrun'.
    injection Hrun' as <- <-. destruct Ho as (Hc & Hoff & Hlen).
    split; [exact Hoff|]. exists bs. now repeat split.
  - destruct H as (st'' & Hrun'). rewrite Hrun in Hrun'. discriminate.
Qed.

Lemma varint_encode_fresh_array_witness :
  exists a st',
    Store.VarInt.encode 0xFD {[ 0%nat := [x01] ]} = (Ok a, st')
    /\ ({[ 0%nat := [x01] ]} : Store.store) !! Store.buffer a = None
    /\ Store.byteOffset a = 0%nat
    /\ exists bs, VarInt.encode 0xFD = Ok bs
         /\ st' !! Store.buffer a = Some bs
         /\ Store.length a = length bs.
Proof.
  eexists _, _. split; [vm_compute; reflexivity|].
  apply (varint_encode_fresh_array {[ 0%nat := [x01] ]}). vm_compute.
  reflexivity.
Defined.

(** ** BufferUtil.compare and BufferUtil.equals *)

Lemma get_cons_succ (x : byte) (a : bytes) (i : Z) :
  0 <= i -> get (x :: a) (i + 1) = get a i.
Proof.
  intros Hi. unfold get. destruct (Z.ltb_spec (i + 1) 0); [lia|].
  destruct (Z.ltb_spec i 0); [lia|].
  replace (Z.to_nat (i + 1)) with (S (Z.to_nat i)) by lia. reflexivity.
Qed.

Lemma compare_loop_cons (n : nat) (x y : byte) (a b : bytes) (i : Z) :
  0 <= i ->
  BufferUtil.compare_loop n (x :: a) (y :: b) (i + 1)
  = BufferUtil.compare_loop n a b i.
Proof.
  revert i. induction n as [|n IH]; intros i Hi; [reflexivity|].
  cbn [BufferUtil.compare_loop]. rewrite !get_cons_succ by lia.
  rewrite IH by lia. reflexivity.
Qed.

Lemma compare_nil_l (b : bytes) :
  BufferUtil.compare [] b = if blen b =? 0 then 0 else -1.
Proof.
  unfold BufferUtil.compare. pose proof (blen_nonneg b).
  change (blen []) with 0. rewrite Z.min_l by lia.
  cbn [Z.to_nat BufferUtil.compare_loop].
  rewrite (Z.eqb_sym 0). destruct (Z.eqb_spec (blen b) 0); [reflexivity|].
  destruct (Z.ltb_spec 0 (blen b)); [reflexivity|lia].
Qed.

Lemma compare_nil_r (a : bytes) :
  BufferUtil.compare a [] = if blen a =? 0 then 0 else 1.
Proof.
  unfold BufferUtil.compare. pose proof (blen_nonneg a).
  change (blen []) with 0. rewrite Z.min_r by lia.
  cbn [Z.to_nat BufferUtil.compare_loop].
  destruct (Z.eqb_spec (blen a) 0); [reflexivity|].
  destruct (Z.ltb_spec (blen a) 0); [lia|reflexivity].
Qed.

(** [compare] goes byte by byte: the first pair of different bytes
    decides. *)
Lemma compare_cons (x y : byte) (a b : bytes) :
  BufferUtil.compare (x :: a) (y :: b) =
    if byte_val x =? byte_val y then BufferUtil.compare a b
    else if byte_val x <? byte_val y then -1 else 1.
Proof.
  unfold BufferUtil.compare. cbv zeta.
  assert (blen (x :: a) = blen a + 1) as -> by (unfold blen; cbn; lia).
  assert (blen (y :: b) = blen b + 1) as -> by (unfold blen; cbn; lia).
  pose proof (blen_nonneg a). pose proof (blen_nonneg b).
  rewrite Z.add_min_distr_r.
  replace (Z.to_nat (Z.min (blen a) (blen b) + 1))
    with (S (Z.to_nat (Z.min (blen a) (blen b)))) by lia.
  cbn [BufferUtil.compare_loop].
  change (get (x :: a) 0) with (JInt (byte_val x)).
  change (get (y :: b) 0) with (JInt (byte_val y)).
  rewrite js_sne_int, js_lt_int.
  destruct (byte_val x =? byte_val y); cbn [negb]; [|reflexivity].
  rewrite (compare_loop_cons _ x y a b 0) by lia.
  destruct (BufferUtil.compare_loop _ a b 0); [reflexivity|].
  destruct (Z.eqb_spec (blen a) (blen b));
    destruct (Z.eqb_spec (blen a + 1) (blen b + 1)); try lia.
  destruct (Z.ltb_spec (blen a) (blen b));
    destruct (Z.ltb_spec (blen a + 1) (blen b + 1)); lia.
Qed.

Lemma blen_cons_pos (x : byte) (a : bytes) : (blen (x :: a) =? 0) = false.
Proof. apply Z.eqb_neq. unfold blen. cbn [length]. lia. Qed.

Lemma compare_zero_iff (a b : bytes) : BufferUtil.compare a b = 0 <-> a = b.
Proof.
  revert b. induction a as [|x a IH]; intros [|y b].
  - rewrite compare_nil_l. now split.
  - rewrite compare_nil_l, blen_cons_pos. split; [lia|discriminate].
  - rewrite compare_nil_r, blen_cons_pos. split; [lia|discriminate].
  - rewrite compare_cons. destruct (Z.eqb_spec (byte_val x) (byte_val y)) as [E|E].
    + apply byte_val_inj in E as ->. rewrite IH. split; congruence.
    + split; [destruct (_ <? _); lia|]. intros [= -> _]. congruence.
Qed.

(** X7. [compare(a, b)] is 0 exactly when the two arrays hold the same
    bytes, and [equals(a, b)] is true in exactly that case. *)
Theorem compare_zero_equals (a b : bytes) :
  (BufferUtil.compare a b = 0 <-> a = b)
  /\ (BufferUtil.equals a b = true <-> a = b).
Proof.
  split; [apply compare_zero_iff|]. unfold BufferUtil.equals.
  rewrite andb_true_iff, !Z.eqb_eq, compare_zero_iff. split.
  - now intros [_ ->].
  - intros ->. now split.
Qed.

(** X8. [compare] returns -1, 0 or 1, and swapping the arguments negates
    the result. *)
Theorem compare_antisymmetric (a b : bytes) :
  BufferUtil.compare b a = - BufferUtil.compare a b
  /\ (BufferUtil.compare a b = -1 \/ BufferUtil.compare a b = 0
      \/ BufferUtil.compare a b = 1).
Proof.
  revert b. induction a as [|x a IH]; intros [|y b].
  - change (BufferUtil.compare [] []) with 0. lia.
  - rewrite compare_nil_l, compare_nil_r, blen_cons_pos. lia.
  - rewrite compare_nil_l, compare_nil_r, blen_cons_pos. lia.
  - rewrite !compare_cons, (Z.eqb_sym (byte_val y)).
    destruct (Z.eqb_spec (byte_val x) (byte_val y)); [apply IH|].
    destruct (Z.ltb_spec (byte_val x) (byte_val y));
      destruct (Z.ltb_spec (byte_val y) (byte_val x)); lia.
Qed.

(** X9. [compare] is a strict order when it says -1: it is transitive, and
    a proper prefix is smaller than the array it begins. *)
Theorem compare_transitive (a b c : bytes) :
  (BufferUtil.compare a b = -1 -> BufferUtil.compare b c = -1 ->
   BufferUtil.compare a c = -1)
  /\ (c <> [] -> BufferUtil.compare a (a ++ c) = -1).
Proof.
  split.
  - revert b c. induction a as [|x a IH]; intros [|y b] [|z c];
      rewrite ?compare_nil_l, ?compare_nil_r, ?blen_cons_pos;
      try lia; try (cbn; lia).
    rewrite !compare_cons.
    destruct (Z.eqb_spec (byte_val x) (byte_val y));
      destruct (Z.eqb_spec (byte_val y) (byte_val z));
      destruct (Z.eqb_spec (byte_val x) (byte_val z)); try lia;
      try apply IH;
      destruct (Z.ltb_spec (byte_val x) (byte_val y));
      destruct (Z.ltb_spec (byte_val y) (byte_val z));
      destruct (Z.ltb_spec (byte_val x) (byte_val z)); lia.
  - intros Hc. induction a as [|x a IH]; cbn [app].
    + rewrite compare_nil_l. destruct c; [congruence|].
      now rewrite blen_cons_pos.
    + rewrite compare_cons, Z.eqb_refl. exact IH.
Qed.

Lemma compare_transitive_witness :
  BufferUtil.compare [x01] [x01; x00] = -1
  /\ BufferUtil.compare [x01; x00] [x02] = -1
  /\ BufferUtil.compare [x01] [x02] = -1
  /\ BufferUtil.compare [x01] ([x01] ++ [x00]) = -1.
Proof.
  split; [reflexivity|]. split; [reflexivity|].
  destruct (compare_transitive [x01] [x01; x00] [x02]) as [H _].
  destruct (compare_transitive [x01] [] [x00]) as [_ H'].
  split; [apply H; reflexivity|apply H'; discriminate].
Defined.

(** ** BufferUtil.toBase64 and BufferUtil.fromBase64 *)

(** X10. [toBase64] hands [btoa] the binary string of the whole array, one
    code unit per byte and in order, whatever the length of the array: the
    chunks of 0x8000 bytes leave no byte out and repeat none.  Without a
    [btoa] it throws. *)
Theorem toBase64_whole_array (env : host) (value : bytes) :
  BufferUtil.toBase64 env value =
    match btoa env with
    | Some btoa => btoa (map byte_val value)
    | None => Throw Base64Unavailable
    end.
Proof.
  unfold BufferUtil.toBase64, BufferUtil.bytesToBase64.
  destruct (btoa env) as [f|]; [|reflexivity]. cbv zeta.
  rewrite bytesToBase64_loop_all by (unfold blen; lia). reflexivity.
Qed.

(** X11. [fromBase64] returns one byte per code unit of what [atob]
    returns, each code unit reduced modulo 256; it throws what [atob]
    throws, and throws without an [atob]. *)
Theorem fromBase64_bytes (env : host) (text : jsstring) :
  BufferUtil.fromBase64 env text =
    match atob env with
    | Some atob =>
        match atob text with
        | Ok binary => Ok (map (fun c => byte_of_Z (c mod 256)) binary)
        | Throw e => Throw e
        end
    | None => Throw Base64Unavailable
    end.
Proof.
  unfold BufferUtil.fromBase64, BufferUtil.base64ToBytes.
  destruct (atob env) as [f|]; [|reflexivity].
  destruct (f text) as [binary|e]; [|reflexivity].
  cbn [mbind result_bind rbind]. f_equal.
  pose proof (base64ToBytes_loop_all binary []
                (new_Uint8Array (Z.of_nat (length binary)))) as H.
  change (Z.of_nat (length (@nil byte))) with 0 in H. cbn [app] in H.
  rewrite H; [reflexivity|].
  unfold new_Uint8Array. now rewrite length_replicate, Nat2Z.id.
Qed.

(** X12. On a host whose [atob] undoes [btoa], [fromBase64] undoes
    [toBase64] for every array. *)
Theorem fromBase64_toBase64 (env : host) (value : bytes) :
  base64_host env ->
  exists text, BufferUtil.toBase64 env value = Ok text
    /\ BufferUtil.fromBase64 env text = Ok value.
Proof. apply base64_roundtrip. Qed.

Lemma fromBase64_toBase64_witness :
  exists text, BufferUtil.toBase64 Base64.env [x4d; x61; x6e] = Ok text
    /\ BufferUtil.fromBase64 Base64.env text = Ok [x4d; x61; x6e].
Proof.
  apply (fromBase64_toBase64 Base64.env [x4d; x61; x6e]), reference_host.
Defined.

(** ** Key.toXOnly *)

(** X13. [toXOnly] throws exactly when the key has neither 32 nor 33 bytes;
    otherwise the result has 32 bytes: the key itself when it has 32, the
    key without its first byte when it has 33. *)
Theorem toXOnly_length (publicKey : bytes) :
  (Key.toXOnly publicKey = None
     <-> length publicKey <> 32%nat /\ length publicKey <> 33%nat)
  /\ (forall x, Key.toXOnly publicKey = Some x ->
        length x = 32%nat
        /\ (length publicKey = 32%nat -> x = publicKey)
        /\ (length publicKey = 33%nat ->
            exists parity, publicKey = parity :: x)).
Proof.
  unfold Key.toXOnly, blen.
  destruct (Z.eqb_spec (Z.of_nat (length publicKey)) 32) as [H32|H32];
    destruct (Z.eqb_spec (Z.of_nat (length publicKey)) 33) as [H33|H33];
    cbn [negb andb]; try lia.
  - split; [split; [discriminate|lia]|]. intros x [= <-].
    split; [lia|]. split; [reflexivity|lia].
  - split; [split; [discriminate|lia]|]. intros x [= <-].
    rewrite subarray_range by lia.
    destruct publicKey as [|parity rest]; [simpl in H33; lia|].
    cbn [length] in H33. change (Z.to_nat 1) with 1%nat. cbn [drop].
    rewrite drop_0, take_ge by lia.
    split; [lia|]. split; [cbn [length]; lia|]. intros _. now exists parity.
  - split; [split; [lia|reflexivity]|]. discriminate.
Qed.

Lemma toXOnly_length_witness :
  length (replicate 32 x07) = 32%nat
  /\ (length (x02 :: replicate 32 x07) = 32%nat ->
      replicate 32 x07 = x02 :: replicate 32 x07)
  /\ (length (x02 :: replicate 32 x07) = 33%nat ->
      exists parity, x02 :: replicate 32 x07 = parity :: replicate 32 x07).
Proof.
  destruct (toXOnly_length (x02 :: replicate 32 x07)) as [_ H].
  apply H. reflexivity.
Defined.



(** ** decodeScriptSignature: what is accepted *)

Lemma structural_checks_intro (p : bytes) :
  checks_before_S_length p = true ->
  6 + byte_at p 3 + byte_at p (5 + byte_at p 3) = blen p ->
  high_bit (byte_at p 4) = false ->
  (1 <? byte_at p 3) && (byte_at p 4 =? 0x00)
    && negb (high_bit (byte_at p 5)) = false ->
  high_bit (byte_at p (byte_at p 3 + 6)) = false ->
  (1 <? byte_at p (5 + byte_at p 3))
    && (byte_at p (byte_at p 3 + 6) =? 0x00)
    && negb (high_bit (byte_at p (byte_at p 3 + 7))) = false ->
  structural_checks p = true.
Proof.
  intros H1 H2 H3 H4 H5 H6. unfold structural_checks. cbv zeta.
  rewrite H1, H3, H4, H5, H6. apply Z.eqb_eq in H2. now rewrite H2.
Qed.

Lemma decode2_accepts (p : bytes) (rs : bytes * bytes) :
  ScriptSig.decode2 p = Ok rs -> structural_checks p = true.
Proof.
  destruct (Z.lt_ge_cases (blen p) 8) as [Hs|Hs].
  { now rewrite decode2_too_short. }
  rewrite decode2_checks by lia. cbv zeta.
  destruct (72 <? blen p) eqn:E1; [discriminate|].
  destruct (negb (byte_at p 0 =? 48)) eqn:E2; [discriminate|].
  destruct (negb (byte_at p 1 =? blen p - 2)) eqn:E3; [discriminate|].
  destruct (negb (byte_at p 2 =? 2)) eqn:E4; [discriminate|].
  destruct (byte_at p 3 =? 0) eqn:E5; [discriminate|].
  destruct (blen p <=? 5 + byte_at p 3) eqn:E6; [discriminate|].
  destruct (negb (byte_at p (4 + byte_at p 3) =? 2)) eqn:E7; [discriminate|].
  destruct (byte_at p (5 + byte_at p 3) =? 0) eqn:E8; [discriminate|].
  destruct (negb (6 + byte_at p 3 + byte_at p (5 + byte_at p 3) =? blen p))
    eqn:E9; [discriminate|].
  destruct (high_bit (byte_at p 4)) eqn:E10; [discriminate|].
  destruct ((1 <? byte_at p 3) && (byte_at p 4 =? 0)
            && negb (high_bit (byte_at p 5))) eqn:E11; [discriminate|].
  destruct (high_bit (byte_at p (byte_at p 3 + 6))) eqn:E12; [discriminate|].
  destruct ((1 <? byte_at p (5 + byte_at p 3))
            && (byte_at p (byte_at p 3 + 6) =? 0)
            && negb (high_bit (byte_at p (byte_at p 3 + 7)))) eqn:E13;
    [discriminate|].
  intros _. apply structural_checks_intro; try assumption.
  - apply checks_before_S_length_true.
    rewrite negb_false_iff in E2, E3, E4, E7, E9.
    rewrite Z.eqb_eq in E2, E3, E4, E7. rewrite Z.eqb_neq in E5, E8.
    rewrite Z.ltb_ge in E1. rewrite Z.leb_gt in E6. repeat split; lia.
  - rewrite negb_false_iff in E9. now apply Z.eqb_eq.
Qed.

Lemma hash_type_six (h : byte) :
  hash_type_ok (byte_val h)
  = existsb (Z.eqb (byte_val h)) [0x01; 0x02; 0x03; 0x81; 0x82; 0x83].
Proof. destruct h; reflexivity. Qed.

Lemma decodeScriptSignature_empty :
  ScriptSig.decodeScriptSignature [] = Throw InvalidHashType.
Proof. reflexivity. Qed.

(** X15. The decoder accepts a buffer exactly when it is a payload that
    passes the structural checks followed by one valid hash-type byte; an
    accepted buffer has from 9 to 73 bytes. *)
Theorem decodeScriptSignature_accepts (buffer : bytes) :
  (exists sig, ScriptSig.decodeScriptSignature buffer = Ok sig)
  <-> exists payload h,
        buffer = payload ++ [h]
        /\ hash_type_ok (byte_val h) = true
        /\ structural_checks payload = true
        /\ 9 <= blen buffer <= 73.
Proof.
  split.
  - intros (sig & Hsig).
    destruct (exists_last (l := buffer)) as (payload & h & ->).
    { intros ->. rewrite decodeScriptSignature_empty in Hsig. discriminate. }
    exists payload, h. split; [reflexivity|].
    rewrite decodeScriptSignature_steps in Hsig. cbv zeta in Hsig.
    rewrite get_last, subarray_strip_last in Hsig.
    rewrite ToInt32_small in Hsig
      by (pose proof (byte_val_range h); change (2 ^ 31) with 2147483648; lia).
    destruct (hash_type_ok (byte_val h)); [|discriminate].
    split; [reflexivity|].
    destruct (ScriptSig.decode2 payload) as [rs|e] eqn:E; [|discriminate].
    pose proof (decode2_accepts payload rs E) as Hp. split; [exact Hp|].
    apply structural_checks_true in Hp as (Hb & _).
    apply checks_before_S_length_true in Hb as (Hlen & _).
    rewrite blen_app. change (blen [h]) with 1. lia.
  - intros (payload & h & -> & Hh & Hp & _).
    rewrite decodeScriptSignature_valid, decode2_structural by assumption.
    eexists. reflexivity.
Qed.

(** X16. A signature that the decoder returns carries one of six hash
    types: 0x01, 0x02, 0x03, 0x81, 0x82 or 0x83. *)
Theorem decodeScriptSignature_hash_types (buffer : bytes)
    (sig : ScriptSig.ScriptSignature) :
  ScriptSig.decodeScriptSignature buffer = Ok sig ->
  exists t, ScriptSig.hashType sig = JInt t
    /\ In t [0x01; 0x02; 0x03; 0x81; 0x82; 0x83].
Proof.
  intros Hsig.
  destruct (exists_last (l := buffer)) as (payload & h & ->).
  { intros ->. rewrite decodeScriptSignature_empty in Hsig. discriminate. }
  rewrite decodeScriptSignature_steps in Hsig. cbv zeta in Hsig.
  rewrite get_last, subarray_strip_last in Hsig.
  rewrite ToInt32_small in Hsig
    by (pose proof (byte_val_range h); change (2 ^ 31) with 2147483648; lia).
  destruct (hash_type_ok (byte_val h)) eqn:Hh; [|discriminate].
  destruct (ScriptSig.decode2 payload) as [[r s]|e]; [|discriminate].
  injection Hsig as <-. exists (byte_val h). split; [reflexivity|].
  rewrite hash_type_six in Hh. apply existsb_exists in Hh as (t & Ht & Heq).
  apply Z.eqb_eq in Heq. now rewrite Heq.
Qed.

Lemma decodeScriptSignature_hash_types_witness :
  exists sig t,
    ScriptSig.decodeScriptSignature (sample_payload ++ [x81]) = Ok sig
    /\ ScriptSig.hashType sig = JInt t
    /\ In t [0x01; 0x02; 0x03; 0x81; 0x82; 0x83].
Proof.
  eexists.
  destruct (decodeScriptSignature_hash_types (sample_payload ++ [x81]) _
              eq_refl) as (t & Ht & Hin).
  exists t. split; [reflexivity|]. now split.
Defined.

(** ** fromDER: the integer that R or S stands for *)

Lemma be_value_app (a b : bytes) :
  be_value (a ++ b) = be_value a * 256 ^ Z.of_nat (length b) + be_value b.
Proof.
  unfold be_value. rewrite rev_app_distr, le_value_app, length_rev. lia.
Qed.

Lemma be_value_range (l : bytes) : 0 <= be_value l < 256 ^ Z.of_nat (length l).
Proof.
  unfold be_value. pose proof (le_value_range (rev l)) as H.
  now rewrite length_rev in H.
Qed.

Lemma be_value_zeros (k : nat) (d : bytes) :
  be_value (replicate k x00 ++ d) = be_value d.
Proof.
  induction k as [|k IH]; [reflexivity|].
  change (replicate (S k) x00 ++ d) with ([x00] ++ (replicate k x00 ++ d)).
  rewrite be_value_app, IH. change (be_value [x00]) with 0. lia.
Qed.

Lemma be_value_low (k : nat) (d : bytes) :
  (k <= length d)%nat ->
  be_value (drop k d) = be_value d mod 256 ^ Z.of_nat (length d - k).
Proof.
  intros Hk. rewrite <- (take_drop k d) at 2. rewrite be_value_app.
  rewrite length_drop.
  pose proof (be_value_range (drop k d)) as Hr. rewrite length_drop in Hr.
  rewrite Z.add_comm, Z.mod_add by lia. symmetry. now apply Z.mod_small.
Qed.

(** X17. [fromDER] never throws and returns 32 bytes that stand for the same
    unsigned big-endian integer as its argument, reduced modulo 2^256: the
    leading zero and the padding change nothing, and a value of more than
    32 bytes loses its high-order bytes without an error. *)
Theorem fromDER_value (x : bytes) :
  exists y, ScriptSig.fromDER x = Ok y
    /\ length y = 32%nat
    /\ be_value y = be_value x mod 2 ^ 256.
Proof.
  exists (normalize32 x). split; [apply fromDER_normalize32|].
  split; [apply length_normalize32|].
  unfold normalize32.
  set (stripped := match x with
                   | x0 :: rest => if byte_val x0 =? 0 then rest else x
                   | [] => x
                   end).
  assert (be_value x = be_value stripped) as ->.
  { subst stripped. destruct x as [|x0 rest]; [reflexivity|].
    destruct (Z.eqb_spec (byte_val x0) 0) as [E|]; [|reflexivity].
    change (x0 :: rest) with ([x0] ++ rest). rewrite be_value_app.
    unfold be_value at 1. cbn [rev app le_value]. lia. }
  change (2 ^ 256) with (256 ^ Z.of_nat 32).
  pose proof (be_value_range stripped) as Hr.
  destruct (Nat.leb_spec (length stripped) 32) as [Hl|Hl].
  - rewrite be_value_zeros. symmetry. apply Z.mod_small.
    split; [lia|]. eapply Z.lt_le_trans; [apply Hr|].
    apply Z.pow_le_mono_r; lia.
  - rewrite be_value_low by lia. do 2 f_equal. lia.
Qed.

(** ** Witness.deserialize: the count and the cursor *)

Lemma deserialize_loop_length (n : nat) (witnessToDecode : bytes)
    (witnessDecoded items : list bytes) :
  Witness.deserialize_loop n witnessToDecode witnessDecoded = Ok items ->
  length items = (length witnessDecoded + n)%nat.
Proof.
  revert witnessToDecode witnessDecoded.
  induction n as [|n IH]; intros buf acc; cbn [Witness.deserialize_loop].
  - intros [= <-]. lia.
  - destruct (VarStr.decode buf) as [w|e]; [|discriminate].
    cbn [mbind result_bind rbind].
    destruct (VarStr.encode w) as [item|e]; [|discriminate].
    cbn [mbind result_bind rbind]. intros H. apply IH in H.
    rewrite length_app in H. cbn [length] in H. lia.
Qed.

Lemma subarray_from_any (b : bytes) (k : Z) :
  0 <= k -> subarray b k JUndefined = drop (Z.to_nat k) b.
Proof.
  intros Hk. destruct (Z.le_gt_cases k (blen b)); [now apply subarray_from|].
  unfold subarray, rel_index, ToInteger. cbn [ToNumber].
  destruct (Z.ltb_spec k 0); [lia|]. rewrite Z.min_r by lia.
  rewrite !drop_ge by (unfold blen in *; lia). apply take_nil.
Qed.

(** What [deserialize] does once the count is read: it goes on from the
    offset that the shortest encoding of the count would end at. *)
Lemma deserialize_bytes_cursor (raw : bytes) (v : Z) :
  VarInt.decode raw = Ok (JInt v) ->
  0 <= v < 0x1000000000000
  /\ Witness.deserialize_bytes raw
     = Witness.deserialize_loop (Z.to_nat v)
         (drop (Z.to_nat (tier_length v)) raw) [].
Proof.
  intros Hd. destruct (decode_result raw _ Hd) as [|(z & [= <-] & Hz)];
    [discriminate|].
  split; [exact Hz|]. unfold Witness.deserialize_bytes. rewrite Hd.
  cbn [mbind result_bind rbind].
  destruct (varint_header v Hz) as (hdr & He & Hl & _). rewrite He.
  cbn [mbind result_bind rbind]. unfold BufferUtil.ensureBuffer.
  rewrite Hl, subarray_from_any; [reflexivity|].
  unfold tier_length. repeat destruct (_ <? _); lia.
Qed.

(** X18. When [deserialize] returns, it returns exactly as many items as
    the count at the head of the input declares: never fewer, whatever
    follows the count.  (The loop that reads the items is the source's; the
    property does not depend on what VarStr, modelled from section 4.2,
    returns.) *)
Theorem deserialize_returns_count (env : host) (raw : bytes)
    (items : list bytes) :
  Witness.deserialize env (inr raw) = Ok items ->
  exists count, VarInt.decode raw = Ok (JInt count)
    /\ Z.of_nat (length items) = count.
Proof.
  unfold Witness.deserialize. cbn [mbind result_bind rbind]. intros H.
  destruct (VarInt.decode raw) as [c|e] eqn:Hd;
    [|unfold Witness.deserialize_bytes in H; rewrite Hd in H; discriminate].
  destruct c as [| |v].
  - unfold Witness.deserialize_bytes in H. rewrite Hd in H. discriminate.
  - unfold Witness.deserialize_bytes in H. rewrite Hd in H. discriminate.
  - exists v. split; [reflexivity|].
    destruct (deserialize_bytes_cursor raw v Hd) as [Hv Hc].
    rewrite Hc in H. apply deserialize_loop_length in H.
    cbn [length] in H. lia.
Qed.

Lemma deserialize_returns_count_witness :
  exists count,
    VarInt.decode [x02; x01; xaa; x00; x09] = Ok (JInt count)
    /\ Z.of_nat (length [[xaa]; ([] : bytes)]) = count.
Proof.
  apply (deserialize_returns_count Base64.env [x02; x01; xaa; x00; x09]).
  reflexivity.
Defined.

(** X19. [deserialize] on an input with a damaged count: the empty input
    throws "Empty buffer provided"; a count tagged 0xFD or 0xFE and cut
    short throws the RangeError of the DataView; a count tagged 0xFF and
    cut short is read as NaN, and the exception is then the "Integer too
    large" of [VarInt.encode]. *)
Theorem deserialize_damaged_count (env : host) (raw : bytes) :
  (blen raw = 0 -> Witness.deserialize env (inr raw) = Throw EmptyInput)
  /\ (get raw 0 = 0xfd -> blen raw < 3 ->
        Witness.deserialize env (inr raw) = Throw TruncatedInput)
  /\ (get raw 0 = 0xfe -> blen raw < 5 ->
        Witness.deserialize env (inr raw) = Throw TruncatedInput)
  /\ (get raw 0 = 0xff -> blen raw < 7 ->
        Witness.deserialize env (inr raw) = Throw ValueTooLarge).
Proof.
  destruct (decode_short_tiers raw) as (H0 & H1 & H2 & H3).
  unfold Witness.deserialize, Witness.deserialize_bytes.
  cbn [mbind result_bind rbind].
  repeat split; intros.
  - now rewrite H0.
  - now rewrite H1.
  - now rewrite H2.
  - now rewrite H3.
Qed.

Lemma deserialize_damaged_count_witness :
  Witness.deserialize Base64.env (inr []) = Throw EmptyInput
  /\ Witness.deserialize Base64.env (inr [xfd; x01]) = Throw TruncatedInput
  /\ Witness.deserialize Base64.env (inr [xfe; x01; x02; x03])
     = Throw TruncatedInput
  /\ Witness.deserialize Base64.env (inr [xff; x01; x02; x03; x04; x05])
     = Throw ValueTooLarge.
Proof.
  destruct (deserialize_damaged_count Base64.env []) as (H0 & _).
  destruct (deserialize_damaged_count Base64.env [xfd; x01])
    as (_ & H1 & _).
  destruct (deserialize_damaged_count Base64.env [xfe; x01; x02; x03])
    as (_ & _ & H2 & _).
  destruct (deserialize_damaged_count Base64.env
              [xff; x01; x02; x03; x04; x05]) as (_ & _ & _ & H3).
  split; [apply H0; reflexivity|].
  split; [apply H1; reflexivity|].
  split; [apply H2; reflexivity|apply H3; reflexivity].
Defined.

(** X20. After the count, [deserialize] goes on from the offset at which
    the shortest encoding of the count would end (1, 3, 5 or 9), not from
    the end of the header that it read: with a count written in a longer
    form than needed, the items are read from inside the header. *)
Theorem deserialize_cursor (env : host) (raw : bytes) (count : Z) :
  VarInt.decode raw = Ok (JInt count) ->
  Witness.deserialize env (inr raw)
  = Witness.deserialize_loop (Z.to_nat count)
      (drop (Z.to_nat (tier_length count)) raw) [].
Proof.
  intros Hd. unfold Witness.deserialize. cbn [mbind result_bind rbind].
  now apply deserialize_bytes_cursor.
Qed.

Lemma deserialize_cursor_witness :
  Witness.deserialize Base64.env (inr [xfd; x01; x00; x02; xaa; xbb])
  = Witness.deserialize_loop 1 [x01; x00; x02; xaa; xbb] []
  /\ Witness.deserialize Base64.env (inr [xfd; x01; x00; x02; xaa; xbb])
     = Ok [[x00]].
Proof.
  split; [|reflexivity].
  apply (deserialize_cursor Base64.env [xfd; x01; x00; x02; xaa; xbb] 1).
  reflexivity.
Defined.
